(** * immutable-set: a store model of [src/set.js]

    The module [src/set.js] exports [safeSet(base, initialPath, value, options)],
    built from [recursiveEqual], [nextBase], the two batch reducers
    [reduceWithArray] / [reduceWithObject] and the recursive setter [set].

    JavaScript objects are mutable and compared by reference, and the
    reducers write into an accumulator ([acc[key] = ...], [acc.push(...)]).
    The embedding therefore keeps an explicit store: a value is a scalar or a
    reference, the store maps references to arrays and plain objects, and every
    function of the source is a computation over that store that may allocate,
    write, or throw.

    Scope of the data model (the JSON-like structures the library is for):
    - numbers are integers ([Z]), within the range where JavaScript numbers
      are exact; there is no [NaN] among the values;
    - a key of a path is a string or a non-negative integer, a group is an
      array of such keys;
    - property lookup is own-property lookup (no prototype chain), and the
      name of a numeric key is its decimal writing; a theorem whose statement
      depends on what a lookup answers, or on the name of a key, is stated
      for the reads and keys on which JavaScript agrees ([plain_read],
      [plain], [plain_along], [key_exact]); arrays are dense lists of any
      length, and may carry named properties;
    - strings are compared and indexed by their characters as [string] has
      them;
    - the [equality] option is a function that reads the store and answers a
      boolean;
    - the conversion of a string key to a number (needed only when a string
      key meets an array, in [key < acc.length], [slice(0, key)] and
      [slice(key + 1)]) is a parameter of the development, [str_to_number]:
      every theorem holds for whatever that conversion answers.

    The recursion of [set] and [recursiveEqual] is on [path.slice(1)]; the
    embedding gives both a fuel, and [safeSet] supplies one more than the
    length of the path, which is shown never to run out. *)

From Stdlib Require Import ZArith Lia Ascii.
From stdpp Require Import base gmap strings list fin_maps pretty.

Local Open Scope string_scope.
Local Open Scope list_scope.
Local Open Scope Z_scope.

(** ** Values and the store *)

Definition loc := positive.

Inductive val :=
| VUndef
| VNull
| VBool (b : bool)
| VNum (z : Z)
| VStr (s : string)
| VRef (l : loc).

#[global] Instance val_eq_dec : EqDecision val.
Proof. solve_decision. Defined.

#[global] Instance val_inhabited : Inhabited val := populate VUndef.

(** An array keeps its elements and, as every JS object, may carry extra
    named properties; a plain object is a property map. *)
Inductive obj :=
| OArr (elems : list val) (named : gmap string val)
| OMap (props : gmap string val).

#[global] Instance obj_eq_dec : EqDecision obj.
Proof. solve_decision. Defined.

Abbreviation heap := (gmap loc obj).

(** A reference the store does not hold cannot arise in JavaScript; it reads
    as an empty object so that [deref] is total. *)
Definition deref (h : heap) (l : loc) : obj := default (OMap ∅) (h !! l).

(** ** Keys, segments, paths *)

Inductive key :=
| KNum (n : N)
| KStr (s : string).

#[global] Instance key_eq_dec : EqDecision key.
Proof. solve_decision. Defined.

(** A path element is a single key or a group of keys (a JS array). *)
Inductive seg :=
| Single (k : key)
| Group (ks : list key).

#[global] Instance seg_eq_dec : EqDecision seg.
Proof. solve_decision. Defined.

(** [ToString] of a key, as used by every property access. *)
Definition key_to_string (k : key) : string :=
  match k with
  | KNum n => pretty n
  | KStr s => s
  end.

(** [ToString] of an array of keys is [join(",")]. *)
Fixpoint join_keys (ks : list key) : string :=
  match ks with
  | [] => ""
  | [k] => key_to_string k
  | k :: ks' => key_to_string k +:+ "," +:+ join_keys ks'
  end.

(** ** Numbers read from strings *)

Definition digit_of_ascii (a : ascii) : option N :=
  let n := N_of_ascii a in
  if ((48 <=? n) && (n <=? 57))%N then Some (n - 48)%N else None.

Definition is_digit (a : ascii) : bool :=
  match digit_of_ascii a with Some _ => true | None => false end.

(** [Number(digits)] for a string of decimal digits; [Number("")] is 0. *)
Fixpoint number_of_digits_from (acc : N) (s : string) : option N :=
  match s with
  | EmptyString => Some acc
  | String a s' =>
      match digit_of_ascii a with
      | Some d => number_of_digits_from (10 * acc + d)%N s'
      | None => None
      end
  end.

Definition number_of_digits (s : string) : option N := number_of_digits_from 0%N s.

(** A canonical array index: the decimal writing of a natural number. *)
Definition array_index_of_string (s : string) : option nat :=
  match s with
  | EmptyString => None
  | _ =>
      match number_of_digits s with
      | Some n => if decide (pretty n = s) then Some (N.to_nat n) else None
      | None => None
      end
  end.

(** The result of [ToNumber] on a string, as far as the source can tell
    numbers apart: it only compares them with a length and truncates them to
    an integer. [JFrac lo] stands for a non-integer strictly between [lo] and
    [lo + 1]. *)
Inductive jsnum :=
| JNaN
| JInt (z : Z)
| JFrac (lo : Z)
| JPosInf
| JNegInf.

(** [ToIntegerOrInfinity], the conversion applied by [Array.prototype.slice]. *)
Inductive int_or_inf :=
| NegInf
| Fin (z : Z)
| PosInf.

Definition to_integer_or_infinity (x : jsnum) : int_or_inf :=
  match x with
  | JNaN => Fin 0
  | JInt z => Fin z
  | JFrac lo => Fin (if 0 <=? lo then lo else lo + 1)
  | JPosInf => PosInf
  | JNegInf => NegInf
  end.

(** [x < n] for a length [n]. *)
Definition jsnum_lt_nat (x : jsnum) (n : nat) : bool :=
  match x with
  | JNaN => false
  | JInt z => z <? Z.of_nat n
  | JFrac lo => lo <? Z.of_nat n
  | JPosInf => false
  | JNegInf => true
  end.

(** A relative index of [slice], clamped to [0 .. len]. *)
Definition clamp_index (len : nat) (i : int_or_inf) : nat :=
  match i with
  | NegInf => 0%nat
  | PosInf => len
  | Fin z =>
      if z <? 0 then Z.to_nat (Z.max (Z.of_nat len + z) 0)
      else Z.to_nat (Z.min z (Z.of_nat len))
  end.

(** [l.slice(start, end)]. *)
Definition js_slice (l : list val) (start stop : int_or_inf) : list val :=
  let k := clamp_index (length l) start in
  let final := clamp_index (length l) stop in
  take (final - k)%nat (drop k l).

(** [l.slice(start)]. *)
Definition js_slice_from (l : list val) (start : int_or_inf) : list val :=
  js_slice l start PosInf.

(** ** Reading values *)

(** [!v] of JavaScript: the falsy values of the model. *)
Definition truthy (v : val) : bool :=
  match v with
  | VUndef | VNull => false
  | VBool b => b
  | VNum z => negb (z =? 0)
  | VStr s => negb (String.eqb s "")
  | VRef _ => true
  end.

(** [base && typeof base === 'object'], the negation of the guard
    [!base || typeof base !== 'object']. *)
Definition is_object (v : val) : bool :=
  match v with
  | VRef _ => true
  | _ => false
  end.

(** [Array.isArray(v)]. *)
Definition is_array (h : heap) (v : val) : bool :=
  match v with
  | VRef l => match deref h l with OArr _ _ => true | OMap _ => false end
  | _ => false
  end.

(** [typeof nextKey === 'number'] for the second element of a path. *)
Definition is_number_seg (s : option seg) : bool :=
  match s with
  | Some (Single (KNum _)) => true
  | _ => false
  end.

(** [o[name]] for a property name. *)
Definition obj_get_name (o : obj) (name : string) : val :=
  match o with
  | OArr elems named =>
      match array_index_of_string name with
      | Some i => default VUndef (elems !! i)
      | None =>
          if String.eqb name "length" then VNum (Z.of_nat (length elems))
          else default VUndef (named !! name)
      end
  | OMap props => default VUndef (props !! name)
  end.

(** [o[key]] for a key of a path. *)
Definition obj_get (o : obj) (k : key) : val :=
  match o, k with
  | OArr elems _, KNum n => default VUndef (elems !! N.to_nat n)
  | _, _ => obj_get_name o (key_to_string k)
  end.

(** [base[key]] where [base] is known to be an object. A scalar has no
    property in the model; the source never reads one from a scalar base. *)
Definition prop (h : heap) (base : val) (k : key) : val :=
  match base with
  | VRef l => obj_get (deref h l) k
  | _ => VUndef
  end.

(** [base[key]] when [key] is any element of a path, or [undefined]. *)
Definition prop_seg (h : heap) (base : val) (s : option seg) : val :=
  match s with
  | Some (Single k) => prop h base k
  | Some (Group ks) => prop h base (KStr (join_keys ks))
  | None => prop h base (KStr "undefined")
  end.

(** The elements of an array ([[...v]]). *)
Definition array_elems (h : heap) (v : val) : list val :=
  match v with
  | VRef l => match deref h l with OArr elems _ => elems | OMap _ => [] end
  | _ => []
  end.

(** The own properties of a plain object ([{...v}]); only applied to plain
    objects. *)
Definition object_props (h : heap) (v : val) : gmap string val :=
  match v with
  | VRef l => match deref h l with OMap props => props | OArr _ named => named end
  | _ => ∅
  end.

(** A character of a string scalar, [s[i]]. *)
Definition string_get (s : string) (k : key) : val :=
  let at_index (i : nat) :=
    match String.get i s with
    | Some c => VStr (String c EmptyString)
    | None => VUndef
    end in
  match k with
  | KNum n => at_index (N.to_nat n)
  | KStr name =>
      match array_index_of_string name with
      | Some i => at_index i
      | None => if String.eqb name "length" then VNum (Z.of_nat (String.length s)) else VUndef
      end
  end.

(** ** Computations over the store *)

Inductive error :=
| ShapeMismatch  (* Error('Can not use object values with array in path') *)
| TypeError.     (* reading a property of null or undefined *)

Inductive result (A : Type) :=
| Ok (a : A)
| Throw (e : error)
| OutOfFuel.
Arguments Ok {A} a.
Arguments Throw {A} e.
Arguments OutOfFuel {A}.

Definition M (A : Type) : Type := heap → result A * heap.

#[global] Instance M_ret : MRet M := λ A a h, (Ok a, h).

#[global] Instance M_bind : MBind M := λ A B f m h,
  match m h with
  | (Ok a, h') => f a h'
  | (Throw e, h') => (Throw e, h')
  | (OutOfFuel, h') => (OutOfFuel, h')
  end.

Definition throw {A} (e : error) : M A := λ h, (Throw e, h).
Definition out_of_fuel {A} : M A := λ h, (OutOfFuel, h).

(** Reading the store. *)
Definition read {A} (f : heap → A) : M A := λ h, (Ok (f h), h).

(** A location the store does not use yet. *)
Definition fresh_loc (h : heap) : loc := fresh (dom h).

(** A literal [[...]] or [{...}]: a new object at a location not in use. *)
Definition alloc (o : obj) : M val := λ h,
  let l := fresh_loc h in (Ok (VRef l), <[l := o]> h).

(** In-place update of the object behind a reference. *)
Definition modify (v : val) (f : obj → obj) : M unit := λ h,
  match v with
  | VRef l => (Ok (), <[l := f (deref h l)]> h)
  | _ => (Ok (), h)
  end.

(** [keys.reduce((acc, key, index) => ..., accumulator)]. *)
Fixpoint reduce_from {A} (f : A → key → nat → M A) (keys : list key) (index : nat) (acc : A) : M A :=
  match keys with
  | [] => mret acc
  | k :: keys' => acc' ← f acc k index; reduce_from f keys' (S index) acc'
  end.

Definition reduce {A} (f : A → key → nat → M A) (keys : list key) (accumulator : A) : M A :=
  reduce_from f keys 0%nat accumulator.

(** [values[index]] for an array [values]. *)
Definition array_nth (h : heap) (values : val) (index : nat) : val :=
  default VUndef (array_elems h values !! index).

(** [values[key]] for a [values] that is not an array: a property of an
    object, a character of a string, nothing on a number or boolean, and a
    TypeError on [null] and [undefined]. *)
Definition value_prop (values : val) (k : key) : M val :=
  match values with
  | VUndef | VNull => throw TypeError
  | VRef l => read (λ h, obj_get (deref h l) k)
  | VStr s => mret (string_get s k)
  | VBool _ | VNum _ => mret VUndef
  end.

(** [acc[i] = v] on the elements of an array; an index past the end pads the
    array. *)
Definition write_index (elems : list val) (i : nat) (v : val) : list val :=
  if (i <? length elems)%nat then <[i := v]> elems
  else elems ++ replicate (i - length elems) VUndef ++ [v].

(** [acc[key] = v] on an array: an index writes an element, any other name
    defines a named property. *)
Definition array_store (acc : val) (k : key) (v : val) : M unit :=
  modify acc (λ o,
    match o with
    | OArr elems named =>
        match k with
        | KNum n => OArr (write_index elems (N.to_nat n) v) named
        | KStr s =>
            match array_index_of_string s with
            | Some i => OArr (write_index elems i v) named
            | None => OArr elems (<[s := v]> named)
            end
        end
    | OMap props => OMap (<[key_to_string k := v]> props)
    end).

(** [acc.push(v)]. *)
Definition array_push (acc : val) (v : val) : M unit :=
  modify acc (λ o,
    match o with
    | OArr elems named => OArr (elems ++ [v]) named
    | OMap props => OMap props
    end).

(** [acc[key] = v] on a plain object. *)
Definition object_store (acc : val) (k : key) (v : val) : M unit :=
  modify acc (λ o,
    match o with
    | OMap props => OMap (<[key_to_string k := v]> props)
    | OArr elems named => OArr elems named
    end).

(** ** The path parser of [safeSet] *)

(** [s.split('.')]. *)
Fixpoint split_dot (s : string) : list string :=
  match s with
  | EmptyString => [EmptyString]
  | String c s' =>
      if Ascii.eqb c "." then EmptyString :: split_dot s'
      else match split_dot s' with
           | t :: ts => String c t :: ts
           | [] => [String c EmptyString]
           end
  end.

(** The pattern of [safeSet] is an opening bracket, any number of decimal
    digits (the captured group) and a closing bracket. [bracket_digits] matches
    what follows the opening bracket and returns the captured digits. *)
Fixpoint bracket_digits (s : string) : option string :=
  match s with
  | EmptyString => None
  | String c s' =>
      if Ascii.eqb c "]" then Some EmptyString
      else if is_digit c then String c <$> bracket_digits s'
      else None
  end.

(** [pattern.exec(key)]: the index of the leftmost match and its captured
    group. *)
Fixpoint exec_bracket (s : string) (index : nat) : option (nat * string) :=
  match s with
  | EmptyString => None
  | String c s' =>
      match (if Ascii.eqb c "[" then bracket_digits s' else None) with
      | Some digits => Some (index, digits)
      | None => exec_bracket s' (S index)
      end
  end.

(** The callback of [path.reduce] in [safeSet]: the segments one token adds. *)
Definition token_segments (token : string) : list seg :=
  match exec_bracket token 0 with
  | Some (index, digits) =>
      [Single (KStr (String.substring 0 index token));
       Single (KNum (default 0%N (number_of_digits digits)))]
  | None => [Single (KStr token)]
  end.

Definition parse_path (s : string) : list seg :=
  flat_map token_segments (split_dot s).

(** ** The setter *)

(** The [initialPath] argument: a string, an array, or anything else. *)
Inductive path_arg :=
| PathString (s : string)
| PathArray (p : list seg)
| PathOther.

Record options := {
  withArrays : bool;
  equality : option (heap → val → val → bool);
  safe : bool;
}.

(** [options = {}]: [withArrays = false], no [equality], [safe] unset. *)
Definition default_options : options :=
  {| withArrays := false; equality := None; safe := false |}.

(** The first block of [safeSet] ("Handle string path"): a non-empty string
    is split and parsed, anything else is left as it is. *)
Definition normalize_path (initialPath : path_arg) : path_arg :=
  match initialPath with
  | PathString s =>
      if (0 <? String.length s)%nat then PathArray (parse_path s) else initialPath
  | _ => initialPath
  end.

Section Setter.

(** [ToNumber] on strings, used when a string key is compared with a length
    or handed to [slice]. *)
Variable str_to_number : string → jsnum.

(** [key] as the end of [slice(0, key)]. *)
Definition key_to_integer (k : key) : int_or_inf :=
  match k with
  | KNum n => Fin (Z.of_N n)
  | KStr s => to_integer_or_infinity (str_to_number s)
  end.

(** [key + 1]: an addition on a number, a concatenation on a string. *)
Definition key_plus_one (k : key) : int_or_inf :=
  match k with
  | KNum n => Fin (Z.of_N n + 1)
  | KStr s => to_integer_or_infinity (str_to_number (s +:+ "1"))
  end.

(** [key < acc.length]. *)
Definition key_lt_length (k : key) (len : nat) : bool :=
  match k with
  | KNum n => (N.to_nat n <? len)%nat
  | KStr s => jsnum_lt_nat (str_to_number s) len
  end.

(** [recursiveEqual(base, path, value, equality)]. *)
Fixpoint recursiveEqual (fuel : nat) (h : heap) (base : val) (path : list seg) (value : val)
    (equality : option (heap → val → val → bool)) : option bool :=
  match fuel with
  | O => None
  | S fuel' =>
      if negb (is_object base) then Some false
      else
        let key := path !! 0%nat in
        let nextKey := path !! 1%nat in
        match nextKey with
        | None =>
            Some match equality with
                 | Some eq => eq h (prop_seg h base key) value
                 | None => bool_decide (prop_seg h base key = value)
                 end
        | Some _ => recursiveEqual fuel' h (prop_seg h base key) (drop 1 path) value equality
        end
  end.

(** [nextBase(base, key, nextKey, withArrays)]. *)
Definition nextBase (base : val) (k : key) (nextKey : option seg) (withArrays : bool) : M val :=
  child ← read (λ h, prop h base k);
  if truthy child then mret child
  else if withArrays && is_number_seg nextKey then alloc (OArr [] ∅)
  else alloc (OMap ∅).

(** [reduceWithArray(setFunction)(base, path, keys, nextKey, values, withArrays, accumulator)]. *)
Definition reduceWithArray (setFunction : val → list seg → val → bool → M val)
    (base : val) (path : list seg) (keys : list key) (nextKey : option seg)
    (values : val) (withArrays : bool) (accumulator : val) : M val :=
  values_is_array ← read (λ h, is_array h values);
  if negb values_is_array then throw ShapeMismatch
  else
    reduce (λ acc k index,
      nb ← nextBase base k nextKey withArrays;
      vi ← read (λ h, array_nth h values index);
      newValue ← setFunction nb (drop 1 path) vi withArrays;
      len ← read (λ h, length (array_elems h acc));
      (if key_lt_length k len then array_store acc k newValue
       else array_push acc newValue);;
      mret acc) keys accumulator.

(** [reduceWithObject(fn)(base, path, keys, nextKey, values, withArrays)]; the
    seventh argument [set] passes is not a parameter of the function. *)
Definition reduceWithObject (fn : val → list seg → val → bool → M val)
    (base : val) (path : list seg) (keys : list key) (nextKey : option seg)
    (values : val) (withArrays : bool) : M val :=
  values_is_array ← read (λ h, is_array h values);
  if (values_is_array : bool) return M val then
    acc0 ← alloc (OMap ∅);
    reduce (λ acc k index,
      nb ← nextBase base k nextKey withArrays;
      vi ← read (λ h, array_nth h values index);
      newValue ← fn nb (drop 1 path) vi withArrays;
      object_store acc k newValue;;
      mret acc) keys acc0
  else
    acc0 ← alloc (OMap ∅);
    reduce (λ acc k _,
      nb ← nextBase base k nextKey withArrays;
      vk ← value_prop values k;
      newValue ← fn nb (drop 1 path) vk withArrays;
      object_store acc k newValue;;
      mret acc) keys acc0.

(** The container [set] puts in place of a [base] that is not an object:
    [(isArrayKeys && typeof key[0] === 'number') || (withArrays && typeof key === 'number')]. *)
Definition coerce_to_array (k : seg) (withArrays : bool) : bool :=
  match k with
  | Group (KNum _ :: _) => true
  | Group _ => false
  | Single (KNum _) => withArrays
  | Single (KStr _) => false
  end.

(** [set(base, path, value, withArrays)]. Each nested call takes
    [path.slice(1)]; [fuel] bounds the nesting. An array or object literal is
    one allocation, made once its parts are evaluated; the empty object [set]
    hands to [reduceWithObject] as a seventh argument is allocated and
    dropped. *)
Fixpoint set (fuel : nat) (base : val) (path : list seg) (value : val) (withArrays : bool) : M val :=
  match fuel with
  | O => out_of_fuel
  | S fuel' =>
      match path with
      | [] => mret value
      | key :: _ =>
          let nextKey := path !! 1%nat in
          currentBase ←
            (if is_object base then mret base
             else if coerce_to_array key withArrays then alloc (OArr [] ∅)
             else alloc (OMap ∅));
          current_is_array ← read (λ h, is_array h currentBase);
          match key with
          | Group keys =>
              if (current_is_array : bool) return M val then
                copy ← read (λ h, array_elems h currentBase);
                accumulator ← alloc (OArr copy ∅);
                reduceWithArray (set fuel') currentBase path keys nextKey value withArrays accumulator
              else
                own ← read (λ h, object_props h currentBase);
                _ ← alloc (OMap ∅);
                reduced ← reduceWithObject (set fuel') currentBase path keys nextKey value withArrays;
                new_props ← read (λ h, object_props h reduced);
                alloc (OMap (new_props ∪ own))
          | Single k =>
              if (current_is_array : bool) return M val then
                before ← read (λ h, js_slice (array_elems h currentBase) (Fin 0) (key_to_integer k));
                nb ← nextBase currentBase k nextKey withArrays;
                newValue ← set fuel' nb (drop 1 path) value withArrays;
                after ← read (λ h, js_slice_from (array_elems h currentBase) (key_plus_one k));
                alloc (OArr (before ++ newValue :: after) ∅)
              else
                own ← read (λ h, object_props h currentBase);
                nb ← nextBase currentBase k nextKey withArrays;
                newValue ← set fuel' nb (drop 1 path) value withArrays;
                alloc (OMap (<[key_to_string k := newValue]> own))
          end
      end
  end.

(** [safeSet(base, initialPath, value, options)], the export of the module. *)
Definition safeSet (base : val) (initialPath : path_arg) (value : val) (opts : options) : M val :=
  let path := normalize_path initialPath in
  match path with
  | PathArray p =>
      if (length p <? 1)%nat then mret (if decide (base = value) then base else value)
      else
        already ←
          (if safe opts then
             λ h, match recursiveEqual (S (length p)) h base p value (equality opts) with
                  | Some b => (Ok b, h)
                  | None => (OutOfFuel, h)
                  end
           else mret false);
        if (already : bool) return M val then mret base
        else set (S (length p)) base p value (withArrays opts)
  | _ => mret (if decide (base = value) then base else value)
  end.

End Setter.

(** A conversion to run examples with: it reads the empty string and
    unsigned decimal integers as [ToNumber] does, and answers [NaN] on every
    other string. *)
Definition decimal_to_number (s : string) : jsnum :=
  match number_of_digits s with
  | Some n => JInt (Z.of_N n)
  | None => JNaN
  end.


(** ** Specification vocabulary *)

(** A computation keeps a store [h0] when, started in any store that extends
    [h0], it ends (normally or not) in a store that still extends [h0]: no
    object of [h0] is written. [Q] is what is known of a returned value. *)
Definition keeps {A} (h0 : heap) (m : M A) (Q : A → Prop) : Prop :=
  ∀ h, h0 ⊆ h →
    h0 ⊆ (m h).2 ∧ ∀ a, (m h).1 = Ok a → Q a.

(** A value that is not a reference into [h0]. *)
Definition outside (h0 : heap) (v : val) : Prop :=
  match v with
  | VRef l => h0 !! l = None
  | _ => True
  end.

(** A computation that never runs out of fuel. *)
Definition fuel_suffices {A} (m : M A) : Prop :=
  ∀ h, (m h).1 ≠ OutOfFuel.

(** A store is closed when the references its objects hold are its own. *)
Definition val_in (h : heap) (v : val) : Prop :=
  match v with
  | VRef l => is_Some (h !! l)
  | _ => True
  end.

Definition obj_in (h : heap) (o : obj) : Prop :=
  match o with
  | OArr elems named => Forall (val_in h) elems ∧ map_Forall (λ _, val_in h) named
  | OMap props => map_Forall (λ _, val_in h) props
  end.

Definition heap_closed (h : heap) : Prop := map_Forall (λ _, obj_in h) h.

(** What can be observed of a structure: the value found by following a list
    of keys from [v], reading properties of objects only. *)
Fixpoint read_path (h : heap) (v : val) (ks : list key) : val :=
  match ks with
  | [] => v
  | k :: ks' => read_path h (prop h v k) ks'
  end.

(** A JSON literal, to say what a call yields; the field names of an object
    literal are distinct. *)
#[local] Unset Elimination Schemes.
Inductive json :=
| JUndef
| JNull
| JBool (b : bool)
| JNum (z : Z)
| JStr (s : string)
| JArr (items : list json)
| JObj (fields : list (string * json)).
#[local] Set Elimination Schemes.

(** Deep equality of a value of the store with a literal: same scalars, an
    array for an array with equal elements in order, a plain object for an
    object with exactly the fields of the literal. *)
Fixpoint matches (h : heap) (j : json) (v : val) {struct j} : bool :=
  match j with
  | JUndef => bool_decide (v = VUndef)
  | JNull => bool_decide (v = VNull)
  | JBool b => bool_decide (v = VBool b)
  | JNum z => bool_decide (v = VNum z)
  | JStr s => bool_decide (v = VStr s)
  | JArr items =>
      match v with
      | VRef l =>
          match h !! l with
          | Some (OArr elems named) =>
              bool_decide (named = ∅) &&
              (fix go (items : list json) (elems : list val) : bool :=
                 match items, elems with
                 | [], [] => true
                 | j' :: items', e :: elems' => matches h j' e && go items' elems'
                 | _, _ => false
                 end) items elems
          | _ => false
          end
      | _ => false
      end
  | JObj fields =>
      match v with
      | VRef l =>
          match h !! l with
          | Some (OMap props) =>
              (size props =? length fields)%nat &&
              (fix go (fields : list (string * json)) : bool :=
                 match fields with
                 | [] => true
                 | (name, j') :: fields' =>
                     match props !! name with
                     | Some e => matches h j' e
                     | None => false
                     end && go fields'
                 end) fields
          | _ => false
          end
      | _ => false
      end
  end.

(** Every character of a string is a decimal digit. *)
Fixpoint all_digits (s : string) : bool :=
  match s with
  | EmptyString => true
  | String c s' => is_digit c && all_digits s'
  end.

(** No character of a string opens a bracket. *)
Fixpoint no_bracket (s : string) : bool :=
  match s with
  | EmptyString => true
  | String c s' => negb (Ascii.eqb c "[") && no_bracket s'
  end.

(** A segment that is a single string key. *)
Definition is_string_key (s : seg) : Prop :=
  match s with
  | Single (KStr _) => True
  | _ => False
  end.

(** *** The level a call of [set] works on

    A nested call of [set] receives as [base] either a value of the caller's
    structure or a container [nextBase] has just created. [level] describes it
    from the caller's store alone. *)
Inductive level :=
| Existing (v : val)
| Created (as_array : bool).

Definition empty_container (as_array : bool) : obj :=
  if as_array then OArr [] ∅ else OMap ∅.

(** The object [set] works on once [base] is coerced ([currentBase]), for the
    segment [sg] at the head of the path. *)
Definition level_obj (h : heap) (wa : bool) (lv : level) (sg : seg) : obj :=
  match lv with
  | Existing (VRef l) => deref h l
  | Existing _ => empty_container (coerce_to_array sg wa)
  | Created a => empty_container a
  end.

Definition obj_is_array (o : obj) : bool :=
  match o with
  | OArr _ _ => true
  | OMap _ => false
  end.

(** The level one key further down: the child when it is truthy, a created
    container otherwise. *)
Definition next_level (h : heap) (wa : bool) (lv : level) (sg : seg) (k : key)
    (nextKey : option seg) : level :=
  let child := obj_get (level_obj h wa lv sg) k in
  if truthy child then Existing child else Created (wa && is_number_seg nextKey).

(** [values[key]] read from the caller's store: nothing on [null] and
    [undefined]. *)
Definition value_prop_pure (h : heap) (values : val) (k : key) : option val :=
  match values with
  | VUndef | VNull => None
  | VRef l => Some (obj_get (deref h l) k)
  | VStr s => Some (string_get s k)
  | VBool _ | VNum _ => Some VUndef
  end.

(** The value a group pairs with its key [k] at position [i]: by position
    when the values are an array, by key when the level is a plain object and
    the values can be read, none otherwise. *)
Definition paired_value (h : heap) (level_array : bool) (values : val) (i : nat) (k : key)
    : option val :=
  if is_array h values then Some (array_nth h values i)
  else if level_array then None
  else value_prop_pure h values k.



(** The first failure of a reducer, in the order of its keys. *)
Fixpoint first_failure (f : nat → key → option error) (keys : list key) (i : nat) : option error :=
  match keys with
  | [] => None
  | k :: keys' =>
      match f i k with
      | Some e => Some e
      | None => first_failure f keys' (S i)
      end
  end.

(** The failure of the setter, computed from the caller's store. *)
Fixpoint failure (h : heap) (wa : bool) (lv : level) (path : list seg) (value : val)
    : option error :=
  match path with
  | [] => None
  | Single k :: rest =>
      failure h wa (next_level h wa lv (Single k) k (rest !! 0%nat)) rest value
  | Group ks :: rest =>
      let under i k v :=
        failure h wa (next_level h wa lv (Group ks) k (rest !! 0%nat)) rest v in
      if is_array h value then
        first_failure (λ i k, under i k (array_nth h value i)) ks 0
      else if obj_is_array (level_obj h wa lv (Group ks)) then Some ShapeMismatch
      else
        first_failure (λ i k,
          match value_prop_pure h value k with
          | Some vk => under i k vk
          | None => Some TypeError
          end) ks 0
  end.

(** [rep h0 h lv b]: in the store [h], the value [b] is the level [lv] of the
    caller's store [h0]. *)
Definition rep (h0 h : heap) (lv : level) (b : val) : Prop :=
  match lv with
  | Existing v => b = v ∧ val_in h0 v
  | Created a => ∃ l, b = VRef l ∧ h0 !! l = None ∧ h !! l = Some (empty_container a)
  end.

(** *** Structural sharing along a path *)

(** The keys a segment names. *)
Definition seg_keys (sg : seg) : list key :=
  match sg with
  | Single k => [k]
  | Group ks => ks
  end.



(** The keys of a group fit an array of length [len] when each, at its turn,
    is an index of the accumulator or its length. *)
Fixpoint group_fits (len : nat) (ks : list key) : Prop :=
  match ks with
  | [] => True
  | KNum n :: ks' => (N.to_nat n ≤ len)%nat ∧ group_fits (Nat.max len (S (N.to_nat n))) ks'
  | KStr _ :: _ => False
  end.

Definition seg_fits (o : obj) (sg : seg) : Prop :=
  match o with
  | OMap _ => True
  | OArr elems _ =>
      match sg with
      | Single (KNum n) => (N.to_nat n ≤ length elems)%nat
      | Single (KStr _) => False
      | Group ks => group_fits (length elems) ks
      end
  end.

(** [fits h wa lv path]: along the path, every key applied to an array is an
    integer index no greater than the length the array has at that moment. *)
Fixpoint fits (h : heap) (wa : bool) (lv : level) (path : list seg) : Prop :=
  match path with
  | [] => True
  | sg :: rest =>
      seg_fits (level_obj h wa lv sg) sg
      ∧ ∀ k, k ∈ seg_keys sg → fits h wa (next_level h wa lv sg k (rest !! 0%nat)) rest
  end.


(** What a turn of [reduceWithArray] leaves in the accumulator for the index
    [n]: the element replaced when [n] is in range, the value pushed otherwise. *)
Definition stored (elems : list val) (n : nat) (v : val) : list val :=
  if (n <? length elems)%nat then write_index elems n v else elems ++ [v].

(** The accumulator of [reduceWithArray] after the turns of the numeric keys
    [ks], the first of them at position [i], with the positional values [vs]:
    each key in range overwrites its element, each key out of range pushes its
    value at the end. *)
Fixpoint group_result (acc : list val) (ks : list N) (i : nat) (vs : list val) : list val :=
  match ks with
  | [] => acc
  | k :: ks' => group_result (stored acc (N.to_nat k) (default VUndef (vs !! i))) ks' (S i) vs
  end.


(** The store invariant of a reducer: the caller's store is kept, and the
    current object, which is not the accumulator, holds what it held. *)
Definition reducer_inv (h0 : heap) (lc lacc : loc) (o : obj) (acc : val) (h : heap) : Prop :=
  acc = VRef lacc ∧ h0 ⊆ h ∧ h !! lc = Some o.

Definition error_of {A} (r : result A) : option error :=
  match r with
  | Throw e => Some e
  | _ => None
  end.

(** *** The reads and the keys the model is exact on

    [prop] and [value_prop] read the properties an object owns, and
    [key_to_string] writes a number in decimal. JavaScript goes on to the
    prototype when an object does not own a name, assigns [__proto__] through
    an accessor, and rounds a number from 2^53 on to the nearest double. The
    predicates below delimit the calls on which none of this matters: every
    read finds an own property or a name no prototype defines, no group
    assigns [__proto__], and every numeric key is an integer that a double
    holds exactly. *)

(** The string-keyed members of [Object.prototype] (ECMAScript, with its
    annex B). *)
Definition object_prototype_names : list string :=
  ["constructor"; "__defineGetter__"; "__defineSetter__"; "hasOwnProperty";
   "__lookupGetter__"; "__lookupSetter__"; "isPrototypeOf"; "propertyIsEnumerable";
   "toString"; "valueOf"; "__proto__"; "toLocaleString"].

(** The names a number or a boolean inherits: those of [Number.prototype]
    and [Boolean.prototype], and behind them those of [Object.prototype]. *)
Definition primitive_prototype_names : list string :=
  object_prototype_names ++ ["toExponential"; "toFixed"; "toPrecision"].

Definition name_in (s : string) (names : list string) : bool :=
  existsb (String.eqb s) names.

(** A numeric key below 2^53: a double holds it and its successor exactly,
    and its property name is its decimal writing. *)
Definition key_exact (k : key) : bool :=
  match k with
  | KNum n => (n <? 9007199254740992)%N
  | KStr _ => true
  end.

(** [o[k]] is decided by [o] alone: on an array an index, [length] or a named
    property the array owns; on a plain object a property it owns, or a name
    that [Object.prototype] does not define. *)
Definition plain_read (o : obj) (k : key) : bool :=
  match o with
  | OArr _ named =>
      match k with
      | KNum _ => true
      | KStr s =>
          match array_index_of_string s, named !! s with
          | None, None => String.eqb s "length"
          | _, _ => true
          end
      end
  | OMap props =>
      match props !! key_to_string k with
      | Some _ => true
      | None => negb (name_in (key_to_string k) object_prototype_names)
      end
  end.






(** *** Reading back, the pre-check and group results *)

(** [holds h r ks v]: following the keys [ks] from [r], each time through an
    object the store holds, ends on [v]. *)
Fixpoint holds (h : heap) (r : val) (ks : list key) (v : val) : Prop :=
  match ks with
  | [] => r = v
  | k :: ks' => ∃ l o, r = VRef l ∧ h !! l = Some o ∧ holds h (obj_get o k) ks' v
  end.

(** Every value a key of [ks] is read from, starting at [base], is an
    object. *)
Fixpoint objects_along (h : heap) (base : val) (ks : list key) : bool :=
  match ks with
  | [] => true
  | k :: ks' => is_object base && objects_along h (prop h base k) ks'
  end.

(** The comparison of the pre-check: the [equality] option when given,
    strict equality otherwise. *)
Definition same_value (h : heap) (equality : option (heap → val → val → bool))
    (found value : val) : bool :=
  match equality with
  | Some eq => eq h found value
  | None => bool_decide (found = value)
  end.

(** A path argument from which no group can come: a string, an array of
    single keys, or no path at all. *)
Definition group_free (initialPath : path_arg) : Prop :=
  match initialPath with
  | PathArray p => ∃ ks, p = Single <$> ks
  | _ => True
  end.

(** The object a reducer builds from nothing for the keys [ks], the first of
    them at position [i], when the value paired with the key [k] at position
    [j] is [g j k]: each key is stored under its name, a later key of the
    same name replacing an earlier one. *)
Fixpoint object_group_result (g : nat → key → val) (ks : list key) (i : nat)
    (pm : gmap string val) : gmap string val :=
  match ks with
  | [] => pm
  | k :: ks' => object_group_result g ks' (S i) (<[key_to_string k := g i k]> pm)
  end.

(** The value a group on a plain object pairs with its key [k] at position
    [i], [undefined] when there is none to read. *)
Definition paired_or_undefined (h : heap) (values : val) (i : nat) (k : key) : val :=
  default VUndef (paired_value h false values i k).

(** A reference to an object the store [h0] does not hold. *)
Definition new_ref (h0 : heap) (v : val) : Prop :=
  ∃ l, v = VRef l ∧ h0 !! l = None.

(** No character of a string is a dot. *)
Fixpoint no_dot (s : string) : bool :=
  match s with
  | EmptyString => true
  | String c s' => negb (Ascii.eqb c ".") && no_dot s'
  end.

(** ** The store discipline of the primitives *)

Lemma bind_run {A B} (m : M A) (f : A → M B) h :
  (m ≫= f) h =
    match m h with
    | (Ok a, h') => f a h'
    | (Throw e, h') => (Throw e, h')
    | (OutOfFuel, h') => (OutOfFuel, h')
    end.
Proof. reflexivity. Qed.

Lemma bind_ok {A B} (m : M A) (f : A → M B) h b h' :
  (m ≫= f) h = (Ok b, h') ↔ ∃ a h1, m h = (Ok a, h1) ∧ f a h1 = (Ok b, h').
Proof.
  rewrite bind_run. destruct (m h) as [[a|e|] h1]; split.
  - intros Hf. by exists a, h1.
  - by intros (a' & h1' & [= -> ->] & Hf).
  - intros [=].
  - by intros (a' & h1' & [=] & _).
  - intros [=].
  - by intros (a' & h1' & [=] & _).
Qed.

Lemma fresh_lookup (h : heap) : h !! fresh_loc h = None.
Proof. unfold fresh_loc. apply not_elem_of_dom, is_fresh. Qed.

Lemma keeps_ret {A} h0 (a : A) (Q : A → Prop) : Q a → keeps h0 (mret a) Q.
Proof. intros HQ h Hh. split; [done|]. by intros a' [= <-]. Qed.

Lemma keeps_read {A} h0 (f : heap → A) : keeps h0 (read f) (λ _, True).
Proof. by intros h Hh. Qed.

Lemma keeps_throw {A} h0 e (Q : A → Prop) : keeps h0 (throw e) Q.
Proof. by intros h Hh. Qed.

Lemma keeps_out_of_fuel {A} h0 (Q : A → Prop) : keeps h0 out_of_fuel Q.
Proof. by intros h Hh. Qed.

Lemma keeps_alloc h0 o : keeps h0 (alloc o) (outside h0).
Proof.
  intros h Hh. cbn. split.
  - apply insert_subseteq_r; [|done].
    eapply lookup_weaken_None; [apply fresh_lookup|done].
  - intros a [= <-]. cbn.
    eapply lookup_weaken_None; [apply fresh_lookup|done].
Qed.

Lemma keeps_modify h0 v f : outside h0 v → keeps h0 (modify v f) (λ _, True).
Proof.
  intros Hv h Hh. destruct v; cbn; try done.
  split; [|done]. by apply insert_subseteq_r.
Qed.

Lemma keeps_bind {A B} h0 (m : M A) (f : A → M B) (Q : A → Prop) (R : B → Prop) :
  keeps h0 m Q → (∀ a, Q a → keeps h0 (f a) R) → keeps h0 (m ≫= f) R.
Proof.
  intros Hm Hf h Hh. rewrite bind_run.
  destruct (Hm h Hh) as [Hsub HQ].
  destruct (m h) as [[a|e|] h1]; cbn in *; [|done..].
  apply Hf; [by apply HQ|done].
Qed.

Lemma keeps_weaken {A} h0 (m : M A) (Q R : A → Prop) :
  keeps h0 m Q → (∀ a, Q a → R a) → keeps h0 m R.
Proof.
  intros Hm HQR h Hh. destruct (Hm h Hh) as [? HQ]. split; [done|].
  intros a Ha. by apply HQR, HQ.
Qed.

Lemma keeps_reduce_from {A} h0 (f : A → key → nat → M A) (Inv : A → Prop) keys :
  (∀ acc k i, Inv acc → keeps h0 (f acc k i) Inv) →
  ∀ i acc, Inv acc → keeps h0 (reduce_from f keys i acc) Inv.
Proof.
  intros Hf. induction keys as [|k keys IH]; intros i acc Hacc; cbn.
  - by apply keeps_ret.
  - eapply keeps_bind; [by apply Hf|]. intros acc' Hacc'. by apply IH.
Qed.

(** ** The equations of [set] *)

Section SetterEquations.

Variable str_to_number : string → jsnum.

Lemma set_nil fuel base value wa :
  set str_to_number (S fuel) base [] value wa = mret value.
Proof. reflexivity. Qed.

Lemma set_cons fuel base key rest value wa :
  set str_to_number (S fuel) base (key :: rest) value wa
  = (currentBase ←
       (if is_object base then mret base
        else if coerce_to_array key wa then alloc (OArr [] ∅)
        else alloc (OMap ∅));
     current_is_array ← read (λ h, is_array h currentBase);
     match key with
     | Group keys =>
         if (current_is_array : bool) return M val then
           copy ← read (λ h, array_elems h currentBase);
           accumulator ← alloc (OArr copy ∅);
           reduceWithArray str_to_number (set str_to_number fuel) currentBase
             (key :: rest) keys (rest !! 0%nat) value wa accumulator
         else
           own ← read (λ h, object_props h currentBase);
           _ ← alloc (OMap ∅);
           reduced ← reduceWithObject (set str_to_number fuel) currentBase
             (key :: rest) keys (rest !! 0%nat) value wa;
           new_props ← read (λ h, object_props h reduced);
           alloc (OMap (new_props ∪ own))
     | Single k =>
         if (current_is_array : bool) return M val then
           before ← read (λ h, js_slice (array_elems h currentBase) (Fin 0)
                                 (key_to_integer str_to_number k));
           nb ← nextBase currentBase k (rest !! 0%nat) wa;
           newValue ← set str_to_number fuel nb rest value wa;
           after ← read (λ h, js_slice_from (array_elems h currentBase)
                                (key_plus_one str_to_number k));
           alloc (OArr (before ++ newValue :: after) ∅)
         else
           own ← read (λ h, object_props h currentBase);
           nb ← nextBase currentBase k (rest !! 0%nat) wa;
           newValue ← set str_to_number fuel nb rest value wa;
           alloc (OMap (<[key_to_string k := newValue]> own))
     end).
Proof. reflexivity. Qed.

End SetterEquations.

Section SetterKeeps.

Variable str_to_number : string → jsnum.

Lemma keeps_nextBase h0 base k nextKey wa :
  keeps h0 (nextBase base k nextKey wa) (λ _, True).
Proof.
  unfold nextBase. eapply keeps_bind; [apply keeps_read|]. intros child _.
  destruct (truthy child); [by apply keeps_ret|].
  destruct (wa && is_number_seg nextKey);
    (eapply keeps_weaken; [apply keeps_alloc|done]).
Qed.

Lemma keeps_value_prop h0 values k : keeps h0 (value_prop values k) (λ _, True).
Proof.
  destruct values; cbn; try (by apply keeps_ret); try apply keeps_throw.
  apply keeps_read.
Qed.

Lemma keeps_reduceWithArray h0 setFunction base path keys nextKey values wa acc :
  (∀ b p v w, keeps h0 (setFunction b p v w) (λ _, True)) →
  outside h0 acc →
  keeps h0 (reduceWithArray str_to_number setFunction base path keys nextKey values wa acc)
    (outside h0).
Proof.
  intros Hset Hacc. unfold reduceWithArray.
  eapply keeps_bind; [apply keeps_read|]. intros isarr _.
  destruct (negb isarr); [apply keeps_throw|].
  apply keeps_reduce_from; [|done]. clear acc Hacc. intros acc k i Hacc.
  eapply keeps_bind; [apply keeps_nextBase|]. intros nb _.
  eapply keeps_bind; [apply keeps_read|]. intros vi _.
  eapply keeps_bind; [apply Hset|]. intros newValue _.
  eapply keeps_bind; [apply keeps_read|]. intros len _.
  eapply keeps_bind.
  - instantiate (1 := λ _, True).
    destruct (key_lt_length _ _ _); by apply keeps_modify.
  - intros _ _. by apply keeps_ret.
Qed.

Lemma keeps_reduceWithObject h0 fn base path keys nextKey values wa :
  (∀ b p v w, keeps h0 (fn b p v w) (λ _, True)) →
  keeps h0 (reduceWithObject fn base path keys nextKey values wa) (outside h0).
Proof.
  intros Hset. unfold reduceWithObject.
  eapply keeps_bind; [apply keeps_read|]. intros isarr _.
  destruct isarr.
  - eapply keeps_bind; [apply keeps_alloc|]. intros acc0 Hacc0.
    apply keeps_reduce_from; [|done]. intros acc k i Hacc.
    eapply keeps_bind; [apply keeps_nextBase|]. intros nb _.
    eapply keeps_bind; [apply keeps_read|]. intros vi _.
    eapply keeps_bind; [apply Hset|]. intros newValue _.
    eapply keeps_bind; [by apply keeps_modify|].
    intros _ _. by apply keeps_ret.
  - eapply keeps_bind; [apply keeps_alloc|]. intros acc0 Hacc0.
    apply keeps_reduce_from; [|done]. intros acc k i Hacc.
    eapply keeps_bind; [apply keeps_nextBase|]. intros nb _.
    eapply keeps_bind; [apply keeps_value_prop|]. intros vk _.
    eapply keeps_bind; [apply Hset|]. intros newValue _.
    eapply keeps_bind; [by apply keeps_modify|].
    intros _ _. by apply keeps_ret.
Qed.

(** The setter never writes an object that existed before the call. *)
Lemma keeps_set h0 fuel : ∀ base path value wa,
  keeps h0 (set str_to_number fuel base path value wa) (λ _, True).
Proof.
  induction fuel as [|fuel IH]; intros base path value wa; cbn.
  { apply keeps_out_of_fuel. }
  destruct path as [|key rest]; [by apply keeps_ret|].
  eapply keeps_bind.
  { instantiate (1 := λ _, True).
    destruct (is_object base); [by apply keeps_ret|].
    destruct (coerce_to_array key wa);
      (eapply keeps_weaken; [apply keeps_alloc|done]). }
  intros currentBase _.
  eapply keeps_bind; [apply keeps_read|]. intros isarr _.
  destruct key as [k|keys], isarr.
  - eapply keeps_bind; [apply keeps_read|]. intros before _.
    eapply keeps_bind; [apply keeps_nextBase|]. intros nb _.
    eapply keeps_bind; [apply IH|]. intros newValue _.
    eapply keeps_bind; [apply keeps_read|]. intros after _.
    eapply keeps_weaken; [apply keeps_alloc|done].
  - eapply keeps_bind; [apply keeps_read|]. intros own _.
    eapply keeps_bind; [apply keeps_nextBase|]. intros nb _.
    eapply keeps_bind; [apply IH|]. intros newValue _.
    eapply keeps_weaken; [apply keeps_alloc|done].
  - eapply keeps_bind; [apply keeps_read|]. intros copy _.
    eapply keeps_bind; [apply keeps_alloc|]. intros acc Hacc.
    eapply keeps_weaken; [by apply keeps_reduceWithArray|done].
  - eapply keeps_bind; [apply keeps_read|]. intros own _.
    eapply keeps_bind; [apply keeps_alloc|]. intros _ _.
    eapply keeps_bind; [by apply keeps_reduceWithObject|]. intros reduced _.
    eapply keeps_bind; [apply keeps_read|]. intros new_props _.
    eapply keeps_weaken; [apply keeps_alloc|done].
Qed.

Lemma keeps_safeSet h0 base initialPath value opts :
  keeps h0 (safeSet str_to_number base initialPath value opts) (λ _, True).
Proof.
  unfold safeSet.
  destruct (normalize_path initialPath) as [s|p|]; [by apply keeps_ret| |by apply keeps_ret].
  destruct (length p <? 1)%nat; [by apply keeps_ret|].
  eapply keeps_bind.
  { instantiate (1 := λ _, True). destruct (safe opts); [|by apply keeps_ret].
    intros h Hh. by destruct (recursiveEqual _ _ _ _ _ _) as [b|]. }
  intros already _. destruct already; [by apply keeps_ret|].
  apply keeps_set.
Qed.

End SetterKeeps.

(** ** Observations survive an extension of the store *)

Lemma obj_get_name_in h o name : obj_in h o → val_in h (obj_get_name o name).
Proof.
  destruct o as [elems named|props]; cbn.
  - intros [Helems Hnamed].
    destruct (array_index_of_string name) as [i|].
    + destruct (elems !! i) as [v|] eqn:Hi; cbn; [|done].
      eapply Forall_lookup_1 in Helems; eauto.
    + destruct (String.eqb name "length"); [done|].
      destruct (named !! name) as [v|] eqn:Hn; cbn; [|done].
      by eapply (map_Forall_lookup_1 _ named) in Hnamed.
  - intros Hprops.
    destruct (props !! name) as [v|] eqn:Hn; cbn; [|done].
    by eapply (map_Forall_lookup_1 _ props) in Hprops.
Qed.

Lemma obj_get_in h o k : obj_in h o → val_in h (obj_get o k).
Proof.
  intros Ho. destruct o as [elems named|props], k as [n|s]; cbn;
    try by apply (obj_get_name_in h _ _ Ho).
  destruct Ho as [Helems _].
  destruct (elems !! N.to_nat n) as [v|] eqn:Hi; cbn; [|done].
  eapply Forall_lookup_1 in Helems; eauto.
Qed.

Lemma prop_in h v k : heap_closed h → val_in h v → val_in h (prop h v k).
Proof.
  intros Hh Hv. destruct v as [| | | | |l]; cbn; try done.
  destruct Hv as [o Ho]. unfold deref. rewrite Ho. cbn.
  apply obj_get_in. unfold heap_closed in Hh.
  by eapply (map_Forall_lookup_1 _ h) in Hh.
Qed.

Lemma deref_extends (h h' : heap) l : is_Some (h !! l) → h ⊆ h' → deref h' l = deref h l.
Proof.
  intros [o Ho] Hsub. unfold deref.
  by rewrite (lookup_weaken _ _ _ _ Ho Hsub), Ho.
Qed.

Lemma prop_extends (h h' : heap) v k : val_in h v → h ⊆ h' → prop h' v k = prop h v k.
Proof.
  intros Hv Hsub. destruct v; cbn; try done. by rewrite (deref_extends h h').
Qed.

Lemma read_path_extends (h h' : heap) ks : ∀ v,
  heap_closed h → val_in h v → h ⊆ h' → read_path h' v ks = read_path h v ks.
Proof.
  induction ks as [|k ks IH]; intros v Hh Hv Hsub; cbn; [done|].
  rewrite (prop_extends h h') by done. apply IH; [done| |done]. by apply prop_in.
Qed.

(** ** Fuel *)

Lemma fuel_suffices_ret {A} (a : A) : fuel_suffices (mret a).
Proof. by intros h. Qed.

Lemma fuel_suffices_read {A} (f : heap → A) : fuel_suffices (read f).
Proof. by intros h. Qed.

Lemma fuel_suffices_throw {A} e : fuel_suffices (@throw A e).
Proof. by intros h. Qed.

Lemma fuel_suffices_alloc o : fuel_suffices (alloc o).
Proof. by intros h. Qed.

Lemma fuel_suffices_modify v f : fuel_suffices (modify v f).
Proof. intros h. by destruct v. Qed.

Lemma fuel_suffices_bind {A B} (m : M A) (f : A → M B) :
  fuel_suffices m → (∀ a, fuel_suffices (f a)) → fuel_suffices (m ≫= f).
Proof.
  intros Hm Hf h. rewrite bind_run. specialize (Hm h).
  destruct (m h) as [[a|e|] h1]; cbn in *; [apply Hf|done..].
Qed.

Lemma fuel_suffices_reduce_from {A} (f : A → key → nat → M A) keys :
  (∀ acc k i, fuel_suffices (f acc k i)) →
  ∀ i acc, fuel_suffices (reduce_from f keys i acc).
Proof.
  intros Hf. induction keys as [|k keys IH]; intros i acc; cbn.
  - apply fuel_suffices_ret.
  - apply fuel_suffices_bind; [apply Hf|]. intros acc'. apply IH.
Qed.

Lemma fuel_suffices_nextBase base k nextKey wa : fuel_suffices (nextBase base k nextKey wa).
Proof.
  unfold nextBase. apply fuel_suffices_bind; [apply fuel_suffices_read|]. intros child.
  destruct (truthy child); [apply fuel_suffices_ret|].
  destruct (wa && is_number_seg nextKey); apply fuel_suffices_alloc.
Qed.

Lemma fuel_suffices_value_prop values k : fuel_suffices (value_prop values k).
Proof. by destruct values. Qed.

(** Computations that agree on every store. *)
Lemma bind_ext {A B} (m m' : M A) (f f' : A → M B) :
  (∀ h, m h = m' h) → (∀ a h, f a h = f' a h) → ∀ h, (m ≫= f) h = (m' ≫= f') h.
Proof.
  intros Hm Hf h. rewrite !bind_run, Hm.
  destruct (m' h) as [[a|e|] h1]; [apply Hf|done..].
Qed.

Lemma reduce_from_ext {A} (f f' : A → key → nat → M A) keys :
  (∀ acc k i h, f acc k i h = f' acc k i h) →
  ∀ i acc h, reduce_from f keys i acc h = reduce_from f' keys i acc h.
Proof.
  intros Hf. induction keys as [|k keys IH]; intros i acc h; cbn; [done|].
  apply bind_ext; [apply Hf|]. intros acc' h'. apply IH.
Qed.

Section SetterFuel.

Variable str_to_number : string → jsnum.

Lemma fuel_suffices_reduceWithArray setFunction base path keys nextKey values wa acc :
  (∀ b v, fuel_suffices (setFunction b (drop 1 path) v wa)) →
  fuel_suffices (reduceWithArray str_to_number setFunction base path keys nextKey values wa acc).
Proof.
  intros Hset. unfold reduceWithArray.
  apply fuel_suffices_bind; [apply fuel_suffices_read|]. intros isarr.
  destruct (negb isarr); [apply fuel_suffices_throw|].
  apply fuel_suffices_reduce_from. intros acc' k i.
  apply fuel_suffices_bind; [apply fuel_suffices_nextBase|]. intros nb.
  apply fuel_suffices_bind; [apply fuel_suffices_read|]. intros vi.
  apply fuel_suffices_bind; [apply Hset|]. intros newValue.
  apply fuel_suffices_bind; [apply fuel_suffices_read|]. intros len.
  apply fuel_suffices_bind; [|intros; apply fuel_suffices_ret].
  destruct (key_lt_length _ _ _); apply fuel_suffices_modify.
Qed.

Lemma fuel_suffices_reduceWithObject fn base path keys nextKey values wa :
  (∀ b v, fuel_suffices (fn b (drop 1 path) v wa)) →
  fuel_suffices (reduceWithObject fn base path keys nextKey values wa).
Proof.
  intros Hset. unfold reduceWithObject.
  apply fuel_suffices_bind; [apply fuel_suffices_read|]. intros isarr.
  destruct isarr.
  - apply fuel_suffices_bind; [apply fuel_suffices_alloc|]. intros acc0.
    apply fuel_suffices_reduce_from. intros acc' k i.
    apply fuel_suffices_bind; [apply fuel_suffices_nextBase|]. intros nb.
    apply fuel_suffices_bind; [apply fuel_suffices_read|]. intros vi.
    apply fuel_suffices_bind; [apply Hset|]. intros newValue.
    apply fuel_suffices_bind; [apply fuel_suffices_modify|].
    intros; apply fuel_suffices_ret.
  - apply fuel_suffices_bind; [apply fuel_suffices_alloc|]. intros acc0.
    apply fuel_suffices_reduce_from. intros acc' k i.
    apply fuel_suffices_bind; [apply fuel_suffices_nextBase|]. intros nb.
    apply fuel_suffices_bind; [apply fuel_suffices_value_prop|]. intros vk.
    apply fuel_suffices_bind; [apply Hset|]. intros newValue.
    apply fuel_suffices_bind; [apply fuel_suffices_modify|].
    intros; apply fuel_suffices_ret.
Qed.

(** A fuel above the length of the path is never used up: each nested call
    is on [path.slice(1)]. *)
Lemma fuel_suffices_set fuel : ∀ base path value wa,
  (length path < fuel)%nat →
  fuel_suffices (set str_to_number fuel base path value wa).
Proof.
  induction fuel as [|fuel IH]; intros base path value wa Hlen; [lia|]. cbn.
  destruct path as [|key rest]; [apply fuel_suffices_ret|].
  assert (Hrest : ∀ b v, fuel_suffices (set str_to_number fuel b (drop 1 (key :: rest)) v wa)).
  { intros b v. apply IH. cbn in *. rewrite drop_0. lia. }
  apply fuel_suffices_bind.
  { destruct (is_object base); [apply fuel_suffices_ret|].
    destruct (coerce_to_array key wa); apply fuel_suffices_alloc. }
  intros currentBase.
  apply fuel_suffices_bind; [apply fuel_suffices_read|]. intros isarr.
  destruct key as [k|keys], isarr.
  - apply fuel_suffices_bind; [apply fuel_suffices_read|]. intros before.
    apply fuel_suffices_bind; [apply fuel_suffices_nextBase|]. intros nb.
    apply fuel_suffices_bind; [apply Hrest|]. intros newValue.
    apply fuel_suffices_bind; [apply fuel_suffices_read|]. intros after.
    apply fuel_suffices_alloc.
  - apply fuel_suffices_bind; [apply fuel_suffices_read|]. intros own.
    apply fuel_suffices_bind; [apply fuel_suffices_nextBase|]. intros nb.
    apply fuel_suffices_bind; [apply Hrest|]. intros newValue.
    apply fuel_suffices_alloc.
  - apply fuel_suffices_bind; [apply fuel_suffices_read|]. intros copy.
    apply fuel_suffices_bind; [apply fuel_suffices_alloc|]. intros acc.
    by apply fuel_suffices_reduceWithArray.
  - apply fuel_suffices_bind; [apply fuel_suffices_read|]. intros own.
    apply fuel_suffices_bind; [apply fuel_suffices_alloc|]. intros dropped.
    apply fuel_suffices_bind; [by apply fuel_suffices_reduceWithObject|]. intros reduced.
    apply fuel_suffices_bind; [apply fuel_suffices_read|]. intros new_props.
    apply fuel_suffices_alloc.
Qed.

Lemma reduceWithArray_ext f g base path keys nextKey values wa acc :
  (∀ b v h, f b (drop 1 path) v wa h = g b (drop 1 path) v wa h) →
  ∀ h, reduceWithArray str_to_number f base path keys nextKey values wa acc h
     = reduceWithArray str_to_number g base path keys nextKey values wa acc h.
Proof.
  intros Hfg h. unfold reduceWithArray.
  apply bind_ext; [done|]. intros isarr h1.
  destruct (negb isarr); [done|].
  apply reduce_from_ext. intros acc' k i h2.
  apply bind_ext; [done|]. intros nb h3.
  apply bind_ext; [done|]. intros vi h4.
  apply bind_ext; [apply Hfg|]. done.
Qed.

Lemma reduceWithObject_ext f g base path keys nextKey values wa :
  (∀ b v h, f b (drop 1 path) v wa h = g b (drop 1 path) v wa h) →
  ∀ h, reduceWithObject f base path keys nextKey values wa h
     = reduceWithObject g base path keys nextKey values wa h.
Proof.
  intros Hfg h. unfold reduceWithObject.
  apply bind_ext; [done|]. intros isarr h1.
  destruct isarr.
  - apply bind_ext; [done|]. intros acc0 h2.
    apply reduce_from_ext. intros acc' k i h3.
    apply bind_ext; [done|]. intros nb h4.
    apply bind_ext; [done|]. intros vi h5.
    apply bind_ext; [apply Hfg|]. done.
  - apply bind_ext; [done|]. intros acc0 h2.
    apply reduce_from_ext. intros acc' k i h3.
    apply bind_ext; [done|]. intros nb h4.
    apply bind_ext; [done|]. intros vi h5.
    apply bind_ext; [apply Hfg|]. done.
Qed.

(** One more unit of fuel changes nothing once the fuel is above the length
    of the path. *)
Lemma set_fuel_S fuel : ∀ base path value wa h,
  (length path < fuel)%nat →
  set str_to_number (S fuel) base path value wa h = set str_to_number fuel base path value wa h.
Proof.
  induction fuel as [|fuel IH]; intros base path value wa h Hlen; [lia|].
  destruct path as [|key rest]; [done|].
  assert (Hrest : ∀ b v h', set str_to_number (S fuel) b (drop 1 (key :: rest)) v wa h'
                        = set str_to_number fuel b (drop 1 (key :: rest)) v wa h').
  { intros b v h'. apply IH. cbn in *. rewrite drop_0. lia. }
  rewrite !set_cons.
  apply bind_ext; [done|]. intros currentBase h1.
  apply bind_ext; [done|]. intros isarr h2.
  destruct key as [k|keys], isarr.
  - apply bind_ext; [done|]. intros before h3.
    apply bind_ext; [done|]. intros nb h4.
    apply bind_ext; [apply Hrest|]. done.
  - apply bind_ext; [done|]. intros own h3.
    apply bind_ext; [done|]. intros nb h4.
    apply bind_ext; [apply Hrest|]. done.
  - apply bind_ext; [done|]. intros copy h3.
    apply bind_ext; [done|]. intros acc h4.
    by apply reduceWithArray_ext.
  - apply bind_ext; [done|]. intros own h3.
    apply bind_ext; [done|]. intros dropped h4.
    apply bind_ext; [by apply reduceWithObject_ext|]. done.
Qed.

Lemma set_fuel_enough fuel base path value wa h :
  (length path < fuel)%nat →
  set str_to_number fuel base path value wa h
  = set str_to_number (S (length path)) base path value wa h.
Proof.
  intros Hlen. induction fuel as [|fuel IH]; [lia|].
  destruct (decide (fuel = length path)) as [->|Hne]; [done|].
  rewrite set_fuel_S by lia. apply IH. lia.
Qed.

Lemma recursiveEqual_fuel_S fuel : ∀ h base path value equality,
  (length path < fuel)%nat →
  recursiveEqual (S fuel) h base path value equality
  = recursiveEqual fuel h base path value equality.
Proof.
  induction fuel as [|fuel IH]; intros h base path value equality Hlen; [lia|].
  cbn [recursiveEqual]. destruct (negb (is_object base)); [done|].
  destruct (path !! 1%nat) eqn:Hnext; [|done].
  apply IH. destruct path; cbn in *; [done|]. rewrite drop_0. lia.
Qed.

Lemma recursiveEqual_fuel_enough fuel h base path value equality :
  (length path < fuel)%nat →
  recursiveEqual fuel h base path value equality
  = recursiveEqual (S (length path)) h base path value equality.
Proof.
  intros Hlen. induction fuel as [|fuel IH]; [lia|].
  destruct (decide (fuel = length path)) as [->|Hne]; [done|].
  rewrite recursiveEqual_fuel_S by lia. apply IH. lia.
Qed.

Lemma recursiveEqual_is_Some fuel : ∀ h base path value equality,
  (length path < fuel)%nat →
  is_Some (recursiveEqual fuel h base path value equality).
Proof.
  induction fuel as [|fuel IH]; intros h base path value equality Hlen; [lia|].
  cbn [recursiveEqual]. destruct (negb (is_object base)); [by eexists|].
  destruct (path !! 1%nat) eqn:Hnext; [|by eexists].
  apply IH. destruct path; cbn in *; [done|]. rewrite drop_0. lia.
Qed.

End SetterFuel.

(** ** The path parser *)

Lemma bracket_digits_all_digits ds :
  all_digits ds = true → bracket_digits (ds +:+ "]") = Some ds.
Proof.
  induction ds as [|c ds IH]; cbn -[is_digit]; [done|].
  intros [Hc Hds]%andb_prop.
  change (String c ds +:+ "]") with (String c (ds +:+ "]")).
  cbn -[is_digit]. rewrite Hc, (IH Hds).
  destruct (Ascii.eqb c "]") eqn:Hclose; [|done].
  apply Ascii.eqb_eq in Hclose as ->. by vm_compute in Hc.
Qed.

Lemma split_dot_all_digits ds :
  all_digits ds = true → split_dot (ds +:+ "]") = [ds +:+ "]"].
Proof.
  induction ds as [|c ds IH]; cbn -[is_digit]; [done|].
  intros [Hc Hds]%andb_prop.
  change (String c ds +:+ "]") with (String c (ds +:+ "]")).
  cbn -[is_digit]. rewrite (IH Hds).
  destruct (Ascii.eqb c ".") eqn:Hdot; [|done].
  apply Ascii.eqb_eq in Hdot as ->. by vm_compute in Hc.
Qed.

Lemma number_of_digits_from_all_digits ds : ∀ acc,
  all_digits ds = true → is_Some (number_of_digits_from acc ds).
Proof.
  induction ds as [|c ds IH]; intros acc; cbn -[is_digit]; [by eexists|].
  intros [Hc Hds]%andb_prop. unfold is_digit in Hc.
  destruct (digit_of_ascii c) as [d|]; [by apply IH|done].
Qed.

Lemma exec_bracket_no_bracket t : ∀ i, no_bracket t = true → exec_bracket t i = None.
Proof.
  induction t as [|c t IH]; intros i; cbn; [done|].
  intros [Hc Ht]%andb_prop. apply negb_true_iff in Hc. rewrite Hc. by apply IH.
Qed.

Lemma split_dot_no_bracket s :
  no_bracket s = true → Forall (λ t, no_bracket t = true) (split_dot s).
Proof.
  induction s as [|c s IH]; cbn; [by repeat constructor|].
  intros [Hc Hs]%andb_prop. specialize (IH Hs).
  destruct (Ascii.eqb c "."); [by constructor|].
  destruct (split_dot s) as [|t ts]; [by repeat constructor; cbn; rewrite Hc|].
  inversion IH as [|? ? Ht Hts]; subst. constructor; [|done]. cbn. by rewrite Hc, Ht.
Qed.

Lemma parse_path_no_bracket s :
  no_bracket s = true → Forall is_string_key (parse_path s).
Proof.
  intros Hs. unfold parse_path. apply Forall_flat_map.
  eapply Forall_impl; [by apply split_dot_no_bracket|].
  intros t Ht. unfold token_segments. rewrite exec_bracket_no_bracket by done.
  by repeat constructor.
Qed.

Section SetterTheorems.

Variable str_to_number : string → jsnum.

Lemma safeSet_store_extends h base initialPath value opts :
  h ⊆ (safeSet str_to_number base initialPath value opts h).2.
Proof. by apply (keeps_safeSet str_to_number h base initialPath value opts h). Qed.

(** C1. Whatever the base, the path, the value and the options, [safeSet]
    writes no object that existed before the call, whether it returns or
    throws: the store after the call extends the store before it, so every
    property that can be read from [base], at any depth, reads the same
    value after the call as before. *)
Theorem safeSet_never_mutates_base h base initialPath value opts :
  heap_closed h → val_in h base →
  let h' := (safeSet str_to_number base initialPath value opts h).2 in
  h ⊆ h' ∧ ∀ ks, read_path h' base ks = read_path h base ks.
Proof.
  intros Hclosed Hbase h'.
  assert (Hsub : h ⊆ h') by apply safeSet_store_extends.
  split; [done|]. intros ks. by apply read_path_extends.
Qed.

(** C5. With [safe] set and a non-empty path (an array, or a string once
    parsed), when the equality pre-check [recursiveEqual] (strict equality, or
    the [equality] option when given) finds the value at the path, [safeSet]
    returns [base] itself, the same reference, and leaves the store as it
    was. *)
Theorem safeSet_safe_returns_base h base initialPath p value opts :
  normalize_path initialPath = PathArray p →
  p ≠ [] →
  safe opts = true →
  recursiveEqual (S (length p)) h base p value (equality opts) = Some true →
  safeSet str_to_number base initialPath value opts h = (Ok base, h).
Proof.
  intros Hnorm Hp Hsafe Heq. unfold safeSet. rewrite Hnorm.
  assert (Hlen : (length p <? 1)%nat = false) by by destruct p.
  rewrite Hlen, Hsafe, bind_run, Heq. done.
Qed.

(** C8. The recursive setter terminates: each nested call, also those made
    through the batch reducers, takes [path.slice(1)], so a fuel above the
    length of the path is never used up and the result does not depend on
    it; the same holds for the equality pre-check. *)
Theorem set_terminates fuel h base path value wa equality :
  (length path < fuel)%nat →
  (set str_to_number fuel base path value wa h).1 ≠ OutOfFuel
  ∧ set str_to_number fuel base path value wa h
    = set str_to_number (S (length path)) base path value wa h
  ∧ is_Some (recursiveEqual fuel h base path value equality)
  ∧ recursiveEqual fuel h base path value equality
    = recursiveEqual (S (length path)) h base path value equality.
Proof.
  intros Hlen. split_and!.
  - by apply fuel_suffices_set.
  - by apply set_fuel_enough.
  - by apply recursiveEqual_is_Some.
  - by apply recursiveEqual_fuel_enough.
Qed.

End SetterTheorems.

(** C6 as amended. A string-path token made only of a bracketed index keeps
    its empty prefix as a segment of its own: ["[" digits "]"] normalizes to
    the two segments [""] and the number, in that order. *)
Theorem bracket_only_token_keeps_empty_prefix ds :
  all_digits ds = true →
  ∃ n, number_of_digits ds = Some n
     ∧ normalize_path (PathString ("[" +:+ ds +:+ "]"))
       = PathArray [Single (KStr ""); Single (KNum n)].
Proof.
  intros Hds.
  destruct (number_of_digits_from_all_digits ds 0%N Hds) as [n Hn].
  exists n. split; [done|].
  change ("[" +:+ ds +:+ "]") with (String "[" (ds +:+ "]")).
  cbn [normalize_path String.length Nat.ltb Nat.leb]. f_equal.
  unfold parse_path. cbn [split_dot]. rewrite split_dot_all_digits by done.
  change (Ascii.eqb "[" ".") with false. cbn [flat_map app].
  unfold token_segments. cbn [exec_bracket].
  change (Ascii.eqb "[" "[") with true. cbn match.
  rewrite bracket_digits_all_digits by done.
  unfold number_of_digits in Hn. unfold number_of_digits. rewrite Hn. done.
Qed.

(** The claim C6 as stated fails: ["[0]"] does not normalize to the single
    segment [0]. *)
Lemma bracket_only_token_is_not_single_segment :
  normalize_path (PathString "[0]") ≠ PathArray [Single (KNum 0)].
Proof. vm_compute. discriminate. Qed.

Lemma bracket_only_token_keeps_empty_prefix_witness :
  all_digits "0" = true
  ∧ ∃ n, number_of_digits "0" = Some n
       ∧ normalize_path (PathString ("[" +:+ "0" +:+ "]"))
         = PathArray [Single (KStr ""); Single (KNum n)].
Proof.
  split; [reflexivity|].
  apply (bracket_only_token_keeps_empty_prefix "0"). reflexivity.
Defined.

(** C10. In a string path only brackets make numeric segments: ["a.0.b"]
    normalizes to the three string keys ["a"], ["0"], ["b"], and a string
    without an opening bracket normalizes to string keys only. When the next
    segment is a string key, an absent slot is created by [nextBase] as a
    plain object, also with [withArrays] on: on an empty object ["a.0.b"]
    yields [{ a: { "0": { b: 7 } } }], where ["a[0].b"] yields
    [{ a: [{ b: 7 }] }]. *)
Theorem dotted_numeric_token_stays_string (str_to_number : string → jsnum) s h base k t :
  no_bracket s = true →
  truthy (prop h base k) = false →
  parse_path "a.0.b" = [Single (KStr "a"); Single (KStr "0"); Single (KStr "b")]
  ∧ Forall is_string_key (parse_path s)
  ∧ nextBase base k (Some (Single (KStr t))) true h
    = (Ok (VRef (fresh_loc h)), <[fresh_loc h := OMap ∅]> h)
  ∧ (∃ r h',
       safeSet str_to_number (VRef 1%positive) (PathString "a.0.b") (VNum 7)
         {| withArrays := true; equality := None; safe := false |} {[ 1%positive := OMap ∅ ]}
       = (Ok r, h')
       ∧ matches h' (JObj [("a", JObj [("0", JObj [("b", JNum 7)])])]) r = true)
  ∧ (∃ r h',
       safeSet str_to_number (VRef 1%positive) (PathString "a[0].b") (VNum 7)
         {| withArrays := true; equality := None; safe := false |} {[ 1%positive := OMap ∅ ]}
       = (Ok r, h')
       ∧ matches h' (JObj [("a", JArr [JObj [("b", JNum 7)]])]) r = true).
Proof.
  intros Hs Habsent. split_and!.
  - reflexivity.
  - by apply parse_path_no_bracket.
  - unfold nextBase. rewrite bind_run. cbn [read]. rewrite Habsent. done.
  - eexists _, _. split; [vm_compute; reflexivity|]. vm_compute. reflexivity.
  - eexists _, _. split; [vm_compute; reflexivity|]. vm_compute. reflexivity.
Qed.

(** ** Running the primitives *)

Lemma ret_run {A} (a : A) h : (mret a : M A) h = (Ok a, h).
Proof. reflexivity. Qed.

Lemma read_run {A} (f : heap → A) h : read f h = (Ok (f h), h).
Proof. reflexivity. Qed.

Lemma alloc_run o h : alloc o h = (Ok (VRef (fresh_loc h)), <[fresh_loc h := o]> h).
Proof. reflexivity. Qed.

Lemma modify_run l f h : modify (VRef l) f h = (Ok (), <[l := f (deref h l)]> h).
Proof. reflexivity. Qed.

Lemma deref_lookup (h : heap) l o : h !! l = Some o → deref h l = o.
Proof. unfold deref. by intros ->. Qed.


Lemma deref_insert_ne (h : heap) l l' o : l ≠ l' → deref (<[l := o]> h) l' = deref h l'.
Proof. intros Hne. unfold deref. by rewrite lookup_insert_ne. Qed.

Lemma fresh_loc_ne (h : heap) l : is_Some (h !! l) → fresh_loc h ≠ l.
Proof. intros [o Ho] <-. by rewrite fresh_lookup in Ho. Qed.

Lemma deref_alloc_old (h : heap) l o : is_Some (h !! l) → deref (<[fresh_loc h := o]> h) l = deref h l.
Proof. intros Hl. by apply deref_insert_ne, fresh_loc_ne. Qed.

Lemma lookup_alloc_old (h : heap) l o :
  is_Some (h !! l) → <[fresh_loc h := o]> h !! l = h !! l.
Proof. intros Hl. by apply lookup_insert_ne, fresh_loc_ne. Qed.

Lemma nextBase_absent base k nextKey wa h :
  truthy (prop h base k) = false →
  nextBase base k nextKey wa h
  = (Ok (VRef (fresh_loc h)),
     <[fresh_loc h := if wa && is_number_seg nextKey then OArr [] ∅ else OMap ∅]> h).
Proof.
  intros Habsent. unfold nextBase. rewrite bind_run, read_run, Habsent.
  by destruct (wa && is_number_seg nextKey).
Qed.

Lemma nextBase_present base k nextKey wa h :
  truthy (prop h base k) = true →
  nextBase base k nextKey wa h = (Ok (prop h base k), h).
Proof. intros Hpresent. unfold nextBase. by rewrite bind_run, read_run, Hpresent. Qed.

(** ** Slices at a numeric key *)

Lemma js_slice_before (l : list val) (n : N) :
  js_slice l (Fin 0) (Fin (Z.of_N n)) = take (N.to_nat n) l.
Proof.
  unfold js_slice, clamp_index.
  replace (0 <? 0) with false by done.
  replace (Z.of_N n <? 0) with false by (symmetry; apply Z.ltb_ge; lia).
  replace (Z.to_nat (0 `min` Z.of_nat (length l))) with 0%nat by lia.
  rewrite drop_0, Nat.sub_0_r.
  destruct (decide (N.to_nat n ≤ length l)%nat).
  - f_equal. lia.
  - rewrite !take_ge; [done|lia..].
Qed.

Lemma js_slice_after (l : list val) (n : N) :
  js_slice_from l (Fin (Z.of_N n + 1)) = drop (S (N.to_nat n)) l.
Proof.
  unfold js_slice_from, js_slice, clamp_index.
  replace (Z.of_N n + 1 <? 0) with false by (symmetry; apply Z.ltb_ge; lia).
  destruct (decide (S (N.to_nat n) ≤ length l)%nat).
  - replace (Z.to_nat ((Z.of_N n + 1) `min` Z.of_nat (length l))) with (S (N.to_nat n)) by lia.
    apply take_ge. rewrite length_drop. lia.
  - replace (Z.to_nat ((Z.of_N n + 1) `min` Z.of_nat (length l))) with (length l) by lia.
    rewrite Nat.sub_diag, take_0, drop_ge; [done|lia].
Qed.

(** ** Reading and writing an object whose content is known *)

Lemma is_array_arr (h : heap) l elems named :
  h !! l = Some (OArr elems named) → is_array h (VRef l) = true.
Proof. intros Hl. cbn. by rewrite (deref_lookup _ _ _ Hl). Qed.

Lemma is_array_map (h : heap) l props :
  h !! l = Some (OMap props) → is_array h (VRef l) = false.
Proof. intros Hl. cbn. by rewrite (deref_lookup _ _ _ Hl). Qed.

Lemma array_elems_arr (h : heap) l elems named :
  h !! l = Some (OArr elems named) → array_elems h (VRef l) = elems.
Proof. intros Hl. cbn. by rewrite (deref_lookup _ _ _ Hl). Qed.

Lemma object_props_map (h : heap) l props :
  h !! l = Some (OMap props) → object_props h (VRef l) = props.
Proof. intros Hl. cbn. by rewrite (deref_lookup _ _ _ Hl). Qed.

Lemma array_nth_arr (h : heap) l elems named i :
  h !! l = Some (OArr elems named) → array_nth h (VRef l) i = default VUndef (elems !! i).
Proof. intros Hl. unfold array_nth. by rewrite (array_elems_arr _ _ _ _ Hl). Qed.


Lemma prop_map (h : heap) l props k :
  h !! l = Some (OMap props) →
  prop h (VRef l) k = default VUndef (props !! key_to_string k).
Proof. intros Hl. cbn. rewrite (deref_lookup _ _ _ Hl). by destruct k. Qed.

Lemma array_push_run (h : heap) l elems named v :
  h !! l = Some (OArr elems named) →
  array_push (VRef l) v h = (Ok (), <[l := OArr (elems ++ [v]) named]> h).
Proof. intros Hl. unfold array_push. by rewrite modify_run, (deref_lookup _ _ _ Hl). Qed.

Lemma array_store_index_run (h : heap) l elems named n v :
  h !! l = Some (OArr elems named) →
  array_store (VRef l) (KNum n) v h
  = (Ok (), <[l := OArr (write_index elems (N.to_nat n) v) named]> h).
Proof. intros Hl. unfold array_store. by rewrite modify_run, (deref_lookup _ _ _ Hl). Qed.

Lemma object_store_run (h : heap) l props k v :
  h !! l = Some (OMap props) →
  object_store (VRef l) k v h = (Ok (), <[l := OMap (<[key_to_string k := v]> props)]> h).
Proof. intros Hl. unfold object_store. by rewrite modify_run, (deref_lookup _ _ _ Hl). Qed.

Section ArrayGrowth.

Variable str_to_number : string → jsnum.

(** Writing [v] at a numeric key past the end of an array: the slot is
    absent, [nextBase] makes an object that is dropped, and the new array is
    the old one followed by [v]. *)
Lemma set_index_past_end h l s named k v wa fuel :
  h !! l = Some (OArr s named) → (length s ≤ N.to_nat k)%nat →
  let h1 := <[fresh_loc h := OMap ∅]> h in
  set str_to_number (S (S fuel)) (VRef l) [Single (KNum k)] v wa h
  = (Ok (VRef (fresh_loc h1)), <[fresh_loc h1 := OArr (s ++ [v]) ∅]> h1).
Proof.
  intros Hl Hk h1. cbn [set is_object lookup list_lookup drop key_to_integer key_plus_one].
  rewrite bind_run, ret_run, bind_run, read_run.
  unfold is_array at 1. rewrite (deref_lookup _ _ _ Hl).
  rewrite bind_run, read_run. unfold array_elems at 1. rewrite (deref_lookup _ _ _ Hl).
  rewrite js_slice_before, bind_run, nextBase_absent.
  2:{ cbn. rewrite (deref_lookup _ _ _ Hl). cbn. by rewrite lookup_ge_None_2. }
  rewrite bind_run, ret_run, bind_run, read_run, js_slice_after.
  unfold array_elems. rewrite deref_alloc_old, (deref_lookup _ _ _ Hl) by done.
  rewrite take_ge, drop_ge by lia. rewrite alloc_run.
  cbn [is_number_seg]. by rewrite andb_false_r.
Qed.

Lemma safeSet_index_past_end h l s named k v wa eq :
  h !! l = Some (OArr s named) → (length s ≤ N.to_nat k)%nat →
  ∃ l' h',
    safeSet str_to_number (VRef l) (PathArray [Single (KNum k)]) v
      {| withArrays := wa; equality := eq; safe := false |} h = (Ok (VRef l'), h')
    ∧ h !! l' = None
    ∧ h' !! l' = Some (OArr (s ++ [v]) ∅).
Proof.
  intros Hl Hk. unfold safeSet.
  cbn [normalize_path length Nat.ltb Nat.leb safe withArrays].
  rewrite bind_run, ret_run.
  rewrite (set_index_past_end h l s named k v wa 0 Hl Hk).
  eexists _, _. split; [done|]. split.
  - rewrite <- (lookup_insert_ne h (fresh_loc h) _ (OMap ∅)); [apply fresh_lookup|].
    intros Heq. pose proof (fresh_lookup (<[fresh_loc h := OMap ∅]> h)) as Hf.
    rewrite <- Heq in Hf. by rewrite lookup_insert_eq in Hf.
  - by rewrite lookup_insert_eq.
Qed.


Lemma nextBase_total base k nextKey wa h :
  ∃ nb h1, nextBase base k nextKey wa h = (Ok nb, h1) ∧ h ⊆ h1.
Proof.
  destruct (truthy (prop h base k)) eqn:Hchild.
  - eexists _, _. by rewrite nextBase_present.
  - eexists _, _. rewrite nextBase_absent by done. split; [done|].
    apply insert_subseteq, fresh_lookup.
Qed.

(** The turns of [reduceWithArray] on numeric keys, when the nested call
    returns the value it is given (the group ends the path). *)
Lemma reduceWithArray_numeric_keys (setFunction : val → list seg → val → bool → M val)
    base path nextKey lv wa lacc vs nv :
  (∀ b v w h, setFunction b (drop 1 path) v w h = (Ok v, h)) →
  lacc ≠ lv →
  ∀ ks i h elems,
    h !! lv = Some (OArr vs nv) →
    h !! lacc = Some (OArr elems ∅) →
    ∃ h',
      reduce_from (λ acc k index,
          nb ← nextBase base k nextKey wa;
          vi ← read (λ h, array_nth h (VRef lv) index);
          newValue ← setFunction nb (drop 1 path) vi wa;
          len ← read (λ h, length (array_elems h acc));
          (if key_lt_length str_to_number k len then array_store acc k newValue
           else array_push acc newValue);;
          mret acc) (KNum <$> ks) i (VRef lacc) h = (Ok (VRef lacc), h')
      ∧ h' !! lacc = Some (OArr (group_result elems ks i vs) ∅).
Proof.
  intros Hset Hne ks.
  induction ks as [|k ks IH]; intros i h elems Hlv Hacc.
  { exists h. by cbn. }
  cbn [fmap list_fmap reduce_from group_result].
  destruct (nextBase_total base (KNum k) nextKey wa h) as (nb & h1 & Hnb & Hsub).
  rewrite bind_run, bind_run, Hnb.
  assert (Hlv1 : h1 !! lv = Some (OArr vs nv)) by by eapply lookup_weaken.
  assert (Hacc1 : h1 !! lacc = Some (OArr elems ∅)) by by eapply lookup_weaken.
  rewrite bind_run, read_run, bind_run, Hset, bind_run, read_run.
  rewrite (array_nth_arr _ _ _ _ _ Hlv1), (array_elems_arr _ _ _ _ Hacc1).
  cbn [key_lt_length]. rewrite bind_run.
  set (v := default VUndef (vs !! i)).
  assert (Hstore : (if (N.to_nat k <? length elems)%nat
                    then array_store (VRef lacc) (KNum k) v
                    else array_push (VRef lacc) v) h1
                   = (Ok (), <[lacc := OArr (stored elems (N.to_nat k) v) ∅]> h1)).
  { unfold stored. destruct (N.to_nat k <? length elems)%nat.
    - by apply array_store_index_run.
    - by apply array_push_run. }
  rewrite Hstore, ret_run. apply IH.
  - by rewrite lookup_insert_ne.
  - by rewrite lookup_insert_eq.
Qed.

Lemma stored_past_end (acc : list val) n v :
  (length acc ≤ n)%nat → stored acc n v = acc ++ [v].
Proof.
  intros Hn. unfold stored.
  by replace (n <? length acc)%nat with false by (symmetry; apply Nat.ltb_ge; lia).
Qed.

Lemma stored_in_range (acc : list val) n v :
  (n < length acc)%nat → stored acc n v = <[n := v]> acc.
Proof.
  intros Hn. unfold stored, write_index.
  by replace (n <? length acc)%nat with true by (symmetry; apply Nat.ltb_lt; lia).
Qed.

Lemma group_result_past_end ks : ∀ acc i vs,
  (∀ j k, ks !! j = Some k → (length acc + j ≤ N.to_nat k)%nat) →
  group_result acc ks i vs = acc ++ ((λ j, default VUndef (vs !! j)) <$> seq i (length ks)).
Proof.
  induction ks as [|k ks IH]; intros acc i vs Hks; cbn [group_result].
  { cbn. by rewrite app_nil_r. }
  rewrite stored_past_end by (specialize (Hks 0%nat k eq_refl); lia).
  rewrite IH.
  - cbn [length seq fmap list_fmap]. by rewrite <- app_assoc.
  - intros j k' Hj. specialize (Hks (S j) k' Hj). rewrite length_app. cbn. lia.
Qed.

Lemma safeSet_group_numeric_keys h l s named lv vs nv ks wa eq :
  h !! l = Some (OArr s named) →
  h !! lv = Some (OArr vs nv) →
  ∃ l' h',
    safeSet str_to_number (VRef l) (PathArray [Group (KNum <$> ks)]) (VRef lv)
      {| withArrays := wa; equality := eq; safe := false |} h = (Ok (VRef l'), h')
    ∧ h !! l' = None
    ∧ h' !! l' = Some (OArr (group_result s ks 0 vs) ∅).
Proof.
  intros Hl Hlv. unfold safeSet.
  cbn [normalize_path length Nat.ltb Nat.leb safe withArrays].
  rewrite bind_run, ret_run, set_cons.
  cbn [is_object lookup list_lookup].
  rewrite bind_run, ret_run, bind_run, read_run, (is_array_arr _ _ _ _ Hl).
  rewrite bind_run, read_run, (array_elems_arr _ _ _ _ Hl), bind_run, alloc_run.
  set (lacc := fresh_loc h). set (h1 := <[lacc := OArr s ∅]> h).
  assert (Hlv1 : h1 !! lv = Some (OArr vs nv)) by (unfold h1, lacc; by rewrite lookup_alloc_old).
  assert (Hacc1 : h1 !! lacc = Some (OArr s ∅)) by (unfold h1; by rewrite lookup_insert_eq).
  unfold reduceWithArray.
  rewrite bind_run, read_run, (is_array_arr _ _ _ _ Hlv1). cbn [negb]. unfold reduce.
  destruct (reduceWithArray_numeric_keys (set str_to_number 1) (VRef l)
              [Group (KNum <$> ks)] None lv wa lacc vs nv) with (ks := ks) (i := 0%nat)
              (h := h1) (elems := s) as (h' & Hrun & Hres); try done.
  - unfold lacc. by apply fresh_loc_ne.
  - exists lacc, h'. split; [apply Hrun|]. split; [apply fresh_lookup|done].
Qed.

(** C7. Writing to an array at the index equal to its length appends: for
    every array [s] and value [v], [safeSet(s, [s.length], v)] returns a new
    array that is [s] followed by [v]. *)
Theorem safeSet_at_length_appends h l s named v wa eq :
  h !! l = Some (OArr s named) →
  ∃ l' h',
    safeSet str_to_number (VRef l) (PathArray [Single (KNum (N.of_nat (length s)))]) v
      {| withArrays := wa; equality := eq; safe := false |} h = (Ok (VRef l'), h')
    ∧ h !! l' = None
    ∧ h' !! l' = Some (OArr (s ++ [v]) ∅).
Proof. intros Hl. eapply safeSet_index_past_end; [done|lia]. Qed.

(** C9. Writing to an array at an index past its end never leaves a hole.
    With a single key [k] at or beyond the length, the value is appended
    right after the last element, so the result has one element more. A
    group of numeric keys leaves [group_result]: at its turn a key in range
    overwrites its element and a key out of range pushes its value at the end
    of the accumulator; when every key is out of range at its turn, the
    result is the array followed by the values, in order. *)
Theorem safeSet_past_end_stays_dense h l s named lv vs nv k ks v wa eq :
  h !! l = Some (OArr s named) →
  h !! lv = Some (OArr vs nv) →
  (length s ≤ N.to_nat k)%nat →
  (∃ l' h',
     safeSet str_to_number (VRef l) (PathArray [Single (KNum k)]) v
       {| withArrays := wa; equality := eq; safe := false |} h = (Ok (VRef l'), h')
     ∧ h !! l' = None
     ∧ h' !! l' = Some (OArr (s ++ [v]) ∅))
  ∧ (∃ l' h',
     safeSet str_to_number (VRef l) (PathArray [Group (KNum <$> ks)]) (VRef lv)
       {| withArrays := wa; equality := eq; safe := false |} h = (Ok (VRef l'), h')
     ∧ h !! l' = None
     ∧ h' !! l' = Some (OArr (group_result s ks 0 vs) ∅))
  ∧ (∀ acc n x, (length acc ≤ n)%nat → stored acc n x = acc ++ [x])
  ∧ (∀ acc n x, (n < length acc)%nat → stored acc n x = <[n := x]> acc)
  ∧ ((∀ j kj, ks !! j = Some kj → (length s + j ≤ N.to_nat kj)%nat) →
     group_result s ks 0 vs = s ++ ((λ j, default VUndef (vs !! j)) <$> seq 0 (length ks))).
Proof.
  intros Hl Hlv Hk. split_and!.
  - by eapply safeSet_index_past_end.
  - by eapply safeSet_group_numeric_keys.
  - apply stored_past_end.
  - apply stored_in_range.
  - apply group_result_past_end.
Qed.

End ArrayGrowth.

(** The two examples of C7: [[]] with ["x"] at 0, and [["x"]] with ["y"] at 1. *)
Lemma safeSet_at_length_appends_witness :
  let h1 : heap := {[ 1%positive := OArr [] ∅ ]} in
  let h2 : heap := {[ 1%positive := OArr [VStr "x"] ∅ ]} in
  h1 !! 1%positive = Some (OArr [] ∅)
  ∧ (∃ l' h',
     safeSet decimal_to_number (VRef 1%positive) (PathArray [Single (KNum 0)]) (VStr "x")
       default_options h1 = (Ok (VRef l'), h')
     ∧ h1 !! l' = None ∧ h' !! l' = Some (OArr [VStr "x"] ∅))
  ∧ (∃ l' h',
     safeSet decimal_to_number (VRef 1%positive) (PathArray [Single (KNum 1)]) (VStr "y")
       default_options h2 = (Ok (VRef l'), h')
     ∧ h2 !! l' = None ∧ h' !! l' = Some (OArr [VStr "x"; VStr "y"] ∅)).
Proof.
  split_and!.
  - reflexivity.
  - apply (safeSet_at_length_appends decimal_to_number
             {[ 1%positive := OArr [] ∅ ]} 1%positive [] ∅ (VStr "x") false None).
    reflexivity.
  - apply (safeSet_at_length_appends decimal_to_number
             {[ 1%positive := OArr [VStr "x"] ∅ ]} 1%positive [VStr "x"] ∅ (VStr "y") false None).
    reflexivity.
Defined.

(** An instance of C9: [["x"]] written at index 5, and the group [[5, 0, 7]]
    with the values [[10, 20, 30]]. *)
Lemma safeSet_past_end_stays_dense_witness :
  let h : heap := {[ 1%positive := OArr [VStr "x"] ∅;
                     2%positive := OArr [VNum 10; VNum 20; VNum 30] ∅ ]} in
  (h !! 1%positive = Some (OArr [VStr "x"] ∅)
   ∧ h !! 2%positive = Some (OArr [VNum 10; VNum 20; VNum 30] ∅)
   ∧ (length [VStr "x"] ≤ N.to_nat 5)%nat)
  ∧ (∃ l' h',
       safeSet decimal_to_number (VRef 1%positive) (PathArray [Single (KNum 5)]) (VStr "y")
         default_options h = (Ok (VRef l'), h')
       ∧ h !! l' = None
       ∧ h' !! l' = Some (OArr [VStr "x"; VStr "y"] ∅))
  ∧ (∃ l' h',
       safeSet decimal_to_number (VRef 1%positive) (PathArray [Group [KNum 5; KNum 0; KNum 7]])
         (VRef 2%positive) default_options h = (Ok (VRef l'), h')
       ∧ h !! l' = None
       ∧ h' !! l' = Some (OArr [VNum 20; VNum 10; VNum 30] ∅)).
Proof.
  split; [by split_and!; [reflexivity|reflexivity|cbn; lia]|].
  destruct (safeSet_past_end_stays_dense decimal_to_number
              {[ 1%positive := OArr [VStr "x"] ∅;
                 2%positive := OArr [VNum 10; VNum 20; VNum 30] ∅ ]}
              1%positive [VStr "x"] ∅ 2%positive [VNum 10; VNum 20; VNum 30] ∅ 5%N
              [5%N; 0%N; 7%N] (VStr "y") false None)
    as (Hsingle & Hgroup & _); [reflexivity|reflexivity|cbn; lia|].
  split; [exact Hsingle|exact Hgroup].
Defined.

(** ** An example run: a group under an absent key *)

(** Lookups in a store built by allocations and writes over a store [h]. *)
Ltac solve_lookup :=
  first
    [ eassumption
    | rewrite lookup_insert_eq; reflexivity
    | rewrite lookup_insert_ne; [solve_lookup | solve_loc_ne] ]
with solve_loc_ne :=
  first
    [ apply fresh_loc_ne; eexists; solve_lookup
    | apply not_eq_sym, fresh_loc_ne; eexists; solve_lookup ].

Section GroupUnderKey.

Variable str_to_number : string → jsnum.

(** When the pre-check does not find the value, [safeSet] on a non-empty
    array path is [set]. *)
Lemma safeSet_runs_set base p value opts h :
  p ≠ [] →
  (safe opts = true →
   recursiveEqual (S (length p)) h base p value (equality opts) = Some false) →
  safeSet str_to_number base (PathArray p) value opts h
  = set str_to_number (S (length p)) base p value (withArrays opts) h.
Proof.
  intros Hp Hpre. unfold safeSet. cbn [normalize_path].
  assert (Hlen : (length p <? 1)%nat = false) by by destruct p.
  rewrite Hlen, bind_run. destruct (safe opts); [|done].
  by rewrite Hpre.
Qed.

Lemma safeSet_group_under_absent_key h lb lv nv opts :
  h !! lb = Some (OMap ∅) →
  h !! lv = Some (OArr [VNum 10; VNum 20] nv) →
  ∃ l' la h',
    safeSet str_to_number (VRef lb)
      (PathArray [Single (KStr "a"); Group [KNum 0; KNum 1]]) (VRef lv) opts h
    = (Ok (VRef l'), h')
    ∧ h' !! l' = Some (OMap {[ "a" := VRef la ]})
    ∧ h' !! la = Some (OMap {[ "0" := VNum 10; "1" := VNum 20 ]}).
Proof.
  intros Hlb Hlv. rewrite safeSet_runs_set; [|done|].
  2:{ intros _. cbn [length recursiveEqual is_object negb lookup list_lookup drop prop_seg].
      by rewrite (prop_map _ _ _ _ Hlb). }
  cbn [length]. rewrite set_cons. cbn [is_object lookup list_lookup].
  rewrite bind_run, ret_run, bind_run, read_run, (is_array_map _ _ _ Hlb).
  rewrite bind_run, read_run, (object_props_map _ _ _ Hlb).
  rewrite bind_run, nextBase_absent by by rewrite (prop_map _ _ _ _ Hlb).
  cbn [is_number_seg]. rewrite andb_false_r.
  set (l1 := fresh_loc h). set (h1 := <[l1 := OMap ∅]> h).
  assert (H1 : h1 !! l1 = Some (OMap ∅)) by (unfold h1; solve_lookup).
  rewrite bind_run, set_cons. cbn [is_object lookup list_lookup].
  rewrite bind_run, ret_run, bind_run, read_run, (is_array_map _ _ _ H1).
  rewrite bind_run, read_run, (object_props_map _ _ _ H1), bind_run, alloc_run.
  set (l2 := fresh_loc h1). set (h2 := <[l2 := OMap ∅]> h1).
  rewrite bind_run. unfold reduceWithObject.
  assert (Hlv2 : h2 !! lv = Some (OArr [VNum 10; VNum 20] nv))
    by (unfold h2, l2, h1, l1; solve_lookup).
  rewrite bind_run, read_run, (is_array_arr _ _ _ _ Hlv2), bind_run, alloc_run.
  set (l3 := fresh_loc h2). set (h3 := <[l3 := OMap ∅]> h2).
  unfold reduce. cbn [reduce_from].
  assert (H13 : h3 !! l1 = Some (OMap ∅)) by (unfold h3, l3, h2, l2, h1; solve_lookup).
  rewrite bind_run, bind_run, nextBase_absent by by rewrite (prop_map _ _ _ _ H13).
  set (l4 := fresh_loc h3). set (h4 := <[l4 := _]> h3).
  assert (Hlv4 : h4 !! lv = Some (OArr [VNum 10; VNum 20] nv))
    by (unfold h4, l4, h3, l3, h2, l2, h1, l1; solve_lookup).
  assert (H34 : h4 !! l3 = Some (OMap ∅)) by (unfold h4, l4, h3; solve_lookup).
  rewrite bind_run, read_run, (array_nth_arr _ _ _ _ _ Hlv4).
  cbn [drop]. rewrite bind_run, set_nil, ret_run, bind_run, (object_store_run _ _ _ _ _ H34), ret_run.
  set (h5 := <[l3 := _]> h4).
  assert (H15 : h5 !! l1 = Some (OMap ∅))
    by (unfold h5, h4, l4, h3, l3, h2, l2, h1; solve_lookup).
  rewrite bind_run, bind_run, nextBase_absent by by rewrite (prop_map _ _ _ _ H15).
  set (l6 := fresh_loc h5). set (h6 := <[l6 := _]> h5).
  assert (Hlv6 : h6 !! lv = Some (OArr [VNum 10; VNum 20] nv))
    by (unfold h6, l6, h5, h4, l4, h3, l3, h2, l2, h1, l1; solve_lookup).
  assert (H36 : h6 !! l3 = Some (OMap (<["0" := VNum 10]> ∅)))
    by (unfold h6, l6, h5; solve_lookup).
  rewrite bind_run, read_run, (array_nth_arr _ _ _ _ _ Hlv6).
  rewrite bind_run, set_nil, ret_run, bind_run, (object_store_run _ _ _ _ _ H36), ret_run, ret_run.
  set (h7 := <[l3 := _]> h6).
  assert (H37 : h7 !! l3 = Some (OMap (<["1" := VNum 20]> (<["0" := VNum 10]> ∅))))
    by (unfold h7; solve_lookup).
  rewrite bind_run, read_run, (object_props_map _ _ _ H37), alloc_run, alloc_run.
  set (l8 := fresh_loc h7). set (h8 := <[l8 := _]> h7).
  eexists _, l8, _. split; [done|]. split.
  - solve_lookup.
  - rewrite lookup_insert_ne by (unfold h8; solve_loc_ne).
    unfold h8. rewrite lookup_insert_eq, (right_id_L ∅ (∪)). reflexivity.
Qed.

(** C3 as amended. On an empty object, the path [["a", [0, 1]]] with the
    positional values [[10, 20]] yields [{ a: { "0": 10, "1": 20 } }]: the
    container created under ["a"] is a plain object, because [nextBase] makes
    an array only for a single numeric next key with [withArrays] on, and a
    group is never one. *)
Theorem group_under_absent_key_yields_object h lb lv nv opts :
  h !! lb = Some (OMap ∅) →
  h !! lv = Some (OArr [VNum 10; VNum 20] nv) →
  ∃ r h',
    safeSet str_to_number (VRef lb)
      (PathArray [Single (KStr "a"); Group [KNum 0; KNum 1]]) (VRef lv) opts h
    = (Ok r, h')
    ∧ matches h' (JObj [("a", JObj [("0", JNum 10); ("1", JNum 20)])]) r = true.
Proof.
  intros Hlb Hlv.
  destruct (safeSet_group_under_absent_key h lb lv nv opts Hlb Hlv)
    as (l' & la & h' & Hrun & Hroot & Hunder).
  exists (VRef l'), h'. split; [done|].
  cbn [matches]. rewrite Hroot. cbn [matches]. rewrite lookup_singleton_eq, Hunder.
  reflexivity.
Qed.

End GroupUnderKey.

(** The claim C3 as stated fails: the call does not yield [{ a: [10, 20] }]. *)
Lemma group_under_absent_key_is_not_array :
  let h : heap := {[ 1%positive := OMap ∅; 2%positive := OArr [VNum 10; VNum 20] ∅ ]} in
  ∃ r h',
    safeSet decimal_to_number (VRef 1%positive)
      (PathArray [Single (KStr "a"); Group [KNum 0; KNum 1]]) (VRef 2%positive)
      default_options h = (Ok r, h')
    ∧ matches h' (JObj [("a", JArr [JNum 10; JNum 20])]) r = false.
Proof. eexists _, _. split; [vm_compute; reflexivity|]. vm_compute. reflexivity. Qed.

Lemma group_under_absent_key_yields_object_witness :
  let h : heap := {[ 1%positive := OMap ∅; 2%positive := OArr [VNum 10; VNum 20] ∅ ]} in
  (h !! 1%positive = Some (OMap ∅)
   ∧ h !! 2%positive = Some (OArr [VNum 10; VNum 20] ∅))
  ∧ ∃ r h',
      safeSet decimal_to_number (VRef 1%positive)
        (PathArray [Single (KStr "a"); Group [KNum 0; KNum 1]]) (VRef 2%positive)
        default_options h = (Ok r, h')
      ∧ matches h' (JObj [("a", JObj [("0", JNum 10); ("1", JNum 20)])]) r = true.
Proof.
  split; [split; reflexivity|].
  apply (group_under_absent_key_yields_object decimal_to_number
           {[ 1%positive := OMap ∅; 2%positive := OArr [VNum 10; VNum 20] ∅ ]}
           1%positive 2%positive ∅ default_options); reflexivity.
Defined.

(** ** Instances *)

(** C1 on [{ a: [1] }] with the path [a[0]]. *)
Lemma safeSet_never_mutates_base_witness :
  let h : heap := {[ 1%positive := OMap {[ "a" := VRef 2%positive ]};
                     2%positive := OArr [VNum 1] ∅ ]} in
  let h' := (safeSet decimal_to_number (VRef 1%positive) (PathString "a[0]") (VNum 7)
               default_options h).2 in
  (heap_closed h ∧ val_in h (VRef 1%positive))
  ∧ h ⊆ h' ∧ ∀ ks, read_path h' (VRef 1%positive) ks = read_path h (VRef 1%positive) ks.
Proof.
  intros h h'.
  assert (Hbase : val_in h (VRef 1%positive)) by (by eexists).
  assert (Hclosed : heap_closed h).
  { apply map_Forall_insert_2.
    - cbn. apply map_Forall_singleton. by eexists.
    - apply map_Forall_singleton. cbn. split; [|apply map_Forall_empty].
      by repeat constructor. }
  split; [done|].
  exact (safeSet_never_mutates_base decimal_to_number h (VRef 1%positive)
           (PathString "a[0]") (VNum 7) default_options Hclosed Hbase).
Defined.

(** C5 on [{ a: 1 }] asked to hold 1 at ["a"]. *)
Lemma safeSet_safe_returns_base_witness :
  let h : heap := {[ 1%positive := OMap {[ "a" := VNum 1 ]} ]} in
  let opts := {| withArrays := false; equality := None; safe := true |} in
  (normalize_path (PathString "a") = PathArray [Single (KStr "a")]
   ∧ [Single (KStr "a")] ≠ []
   ∧ safe opts = true
   ∧ recursiveEqual 2 h (VRef 1%positive) [Single (KStr "a")] (VNum 1) (equality opts)
     = Some true)
  ∧ safeSet decimal_to_number (VRef 1%positive) (PathString "a") (VNum 1) opts h
    = (Ok (VRef 1%positive), h).
Proof.
  intros h opts.
  assert (Hp : [Single (KStr "a")] ≠ []) by discriminate.
  split; [by split_and!|].
  exact (safeSet_safe_returns_base decimal_to_number h (VRef 1%positive) (PathString "a")
           [Single (KStr "a")] (VNum 1) opts eq_refl Hp eq_refl eq_refl).
Defined.

(** C8 on the path [a[0]] with fuel 5. *)
Lemma set_terminates_witness :
  let h : heap := {[ 1%positive := OMap ∅ ]} in
  let path := [Single (KStr "a"); Single (KNum 0)] in
  (length path < 5)%nat
  ∧ (set decimal_to_number 5 (VRef 1%positive) path (VNum 7) true h).1 ≠ OutOfFuel
  ∧ set decimal_to_number 5 (VRef 1%positive) path (VNum 7) true h
    = set decimal_to_number (S (length path)) (VRef 1%positive) path (VNum 7) true h
  ∧ is_Some (recursiveEqual 5 h (VRef 1%positive) path (VNum 7) None)
  ∧ recursiveEqual 5 h (VRef 1%positive) path (VNum 7) None
    = recursiveEqual (S (length path)) h (VRef 1%positive) path (VNum 7) None.
Proof.
  intros h path.
  assert (Hlen : (length path < 5)%nat) by (cbn; lia).
  split; [done|].
  exact (set_terminates decimal_to_number 5 h (VRef 1%positive) path (VNum 7) true None Hlen).
Defined.

(** C10 on the path ["a.0.b"] and an empty object. *)
Lemma dotted_numeric_token_stays_string_witness :
  let h : heap := {[ 1%positive := OMap ∅ ]} in
  (no_bracket "a.0.b" = true
   ∧ truthy (prop h (VRef 1%positive) (KStr "a")) = false)
  ∧ Forall is_string_key (parse_path "a.0.b")
  ∧ nextBase (VRef 1%positive) (KStr "a") (Some (Single (KStr "0"))) true h
    = (Ok (VRef (fresh_loc h)), <[fresh_loc h := OMap ∅]> h).
Proof.
  intros h. split; [by split|].
  destruct (dotted_numeric_token_stays_string decimal_to_number "a.0.b" h (VRef 1%positive)
              (KStr "a") "0" eq_refl eq_refl) as (_ & Hkeys & Hnext & _).
  split; [exact Hkeys|exact Hnext].
Defined.

(** ** Levels seen from the running store *)

Lemma heap_closed_lookup (h : heap) l o : heap_closed h → h !! l = Some o → obj_in h o.
Proof. intros Hclosed Hl. by apply (map_Forall_lookup_1 _ h l o Hclosed). Qed.

Lemma empty_container_in h a : obj_in h (empty_container a).
Proof.
  destruct a; cbn; [split; [constructor|]|]; apply map_Forall_empty.
Qed.

Lemma level_obj_in h wa lv sg :
  heap_closed h → (∀ v, lv = Existing v → val_in h v) → obj_in h (level_obj h wa lv sg).
Proof.
  intros Hclosed Hlv. destruct lv as [v|a]; [|apply empty_container_in].
  destruct v as [| | | | |l]; try apply empty_container_in.
  destruct (Hlv _ eq_refl) as [o Ho]. cbn. rewrite (deref_lookup _ _ _ Ho).
  by eapply heap_closed_lookup.
Qed.

Lemma rep_level_in h0 h lv b : rep h0 h lv b → ∀ v, lv = Existing v → val_in h0 v.
Proof. intros Hrep v ->. by destruct Hrep. Qed.

Lemma is_array_extends (h h' : heap) v : val_in h v → h ⊆ h' → is_array h' v = is_array h v.
Proof. intros Hv Hsub. destruct v; cbn; try done. by rewrite (deref_extends h h'). Qed.

Lemma array_nth_extends (h h' : heap) v i :
  val_in h v → h ⊆ h' → array_nth h' v i = array_nth h v i.
Proof.
  intros Hv Hsub. unfold array_nth, array_elems. destruct v; try done.
  by rewrite (deref_extends h h').
Qed.

Lemma array_nth_in h v i : heap_closed h → val_in h v → val_in h (array_nth h v i).
Proof.
  intros Hclosed Hv. unfold array_nth, array_elems. destruct v as [| | | | |l]; try done.
  destruct Hv as [o Ho]. rewrite (deref_lookup _ _ _ Ho).
  pose proof (heap_closed_lookup _ _ _ Hclosed Ho) as Hobj.
  destruct o as [elems named|props]; [|done]. destruct Hobj as [Helems _].
  destruct (elems !! i) as [v|] eqn:Hi; [|done]. cbn.
  eapply Forall_lookup_1 in Helems; eauto.
Qed.

Lemma value_prop_pure_in h values k v :
  heap_closed h → val_in h values → value_prop_pure h values k = Some v → val_in h v.
Proof.
  intros Hclosed Hv. destruct values as [| | | |s|l]; cbn; try done.
  - by intros [= <-].
  - by intros [= <-].
  - intros [= <-]. unfold string_get.
    destruct k as [n|name]; [by destruct (String.get _ s)|].
    destruct (array_index_of_string name); [by destruct (String.get _ s)|].
    by destruct (String.eqb name "length").
  - intros [= <-]. destruct Hv as [o Ho]. rewrite (deref_lookup _ _ _ Ho).
    apply obj_get_in. by eapply heap_closed_lookup.
Qed.

Lemma value_prop_run (h0 h : heap) values k :
  val_in h0 values → h0 ⊆ h →
  value_prop values k h
  = match value_prop_pure h0 values k with
    | Some v => (Ok v, h)
    | None => (Throw TypeError, h)
    end.
Proof.
  intros Hv Hsub. destruct values; cbn; try done.
  rewrite read_run. by rewrite (deref_extends h0 h).
Qed.

(** [currentBase]: [base] itself when it is an object, a new container
    otherwise; either way an object holding what [level_obj] says. *)
Lemma current_base_run h0 h wa lv b sg :
  h0 ⊆ h → rep h0 h lv b →
  ∃ lc h1,
    (if is_object b then mret b
     else if coerce_to_array sg wa then alloc (OArr [] ∅)
     else alloc (OMap ∅)) h = (Ok (VRef lc), h1)
    ∧ h ⊆ h1
    ∧ h1 !! lc = Some (level_obj h0 wa lv sg)
    ∧ (h0 !! lc = None ∨ lv = Existing (VRef lc)).
Proof.
  intros Hsub Hrep. destruct lv as [v|a].
  - destruct Hrep as [-> Hv]. destruct v as [| | | | |l]; cbn [is_object].
    6:{ exists l, h. destruct Hv as [o Ho]. split_and!; [done|done| |by right].
        cbn. rewrite (deref_lookup _ _ _ Ho). by eapply lookup_weaken. }
    all: exists (fresh_loc h), (<[fresh_loc h := empty_container (coerce_to_array sg wa)]> h).
    all: split_and!;
      [by destruct (coerce_to_array sg wa)
      |apply insert_subseteq, fresh_lookup
      |by rewrite lookup_insert_eq
      |left; eapply lookup_weaken_None; [apply fresh_lookup|done]].
  - destruct Hrep as (l & -> & Hl0 & Hl). exists l, h. split_and!; [done|done|done|by left].
Qed.

(** [nextBase] on the current object: the child when truthy, a new empty
    container otherwise, which is the next level. *)
Lemma next_base_run h0 h wa lv sg lc k nk :
  heap_closed h0 → h0 ⊆ h →
  (∀ v, lv = Existing v → val_in h0 v) →
  h !! lc = Some (level_obj h0 wa lv sg) →
  ∃ nb h2,
    nextBase (VRef lc) k nk wa h = (Ok nb, h2)
    ∧ h ⊆ h2
    ∧ rep h0 h2 (next_level h0 wa lv sg k nk) nb
    ∧ (h2 = h ∨ ∃ l, nb = VRef l ∧ h !! l = None ∧ h2 = <[l := empty_container (wa && is_number_seg nk)]> h).
Proof.
  intros Hclosed Hsub Hlv Hlc. unfold next_level.
  assert (Hchild : prop h (VRef lc) k = obj_get (level_obj h0 wa lv sg) k).
  { cbn. by rewrite (deref_lookup _ _ _ Hlc). }
  destruct (truthy (obj_get (level_obj h0 wa lv sg) k)) eqn:Htruthy.
  - exists (obj_get (level_obj h0 wa lv sg) k), h.
    rewrite nextBase_present by by rewrite Hchild. rewrite Hchild.
    split_and!; [done|done| |by left]. split; [done|].
    apply obj_get_in. by apply level_obj_in.
  - eexists _, _. rewrite nextBase_absent by by rewrite Hchild.
    split_and!; [done|apply insert_subseteq, fresh_lookup| |].
    + exists (fresh_loc h). split_and!; [done| |].
      * eapply lookup_weaken_None; [apply fresh_lookup|done].
      * rewrite lookup_insert_eq. by destruct (wa && is_number_seg nk).
    + right. exists (fresh_loc h). split_and!; [done|apply fresh_lookup|].
      by destruct (wa && is_number_seg nk).
Qed.

(** ** The failure of the setter *)

Lemma reduce_from_failure {A} (f : A → key → nat → M A) (g : nat → key → option error)
    (Inv : A → heap → Prop) keys :
  (∀ acc k i h, Inv acc h →
     error_of (f acc k i h).1 = g i k
     ∧ (f acc k i h).1 ≠ OutOfFuel
     ∧ ∀ acc', (f acc k i h).1 = Ok acc' → Inv acc' (f acc k i h).2) →
  ∀ i acc h, Inv acc h →
    error_of (reduce_from f keys i acc h).1 = first_failure g keys i
    ∧ (reduce_from f keys i acc h).1 ≠ OutOfFuel.
Proof.
  intros Hf. induction keys as [|k keys IH]; intros i acc h Hinv; cbn [reduce_from first_failure].
  { by rewrite ret_run. }
  rewrite bind_run. destruct (Hf acc k i h Hinv) as (Herr & Hfuel & Hnext).
  destruct (f acc k i h) as [[acc'|e|] h1]; cbn in *; [|by rewrite <- Herr|done].
  rewrite <- Herr. apply IH. by apply Hnext.
Qed.


Section SetterFailure.

Variable str_to_number : string → jsnum.

Lemma set_extends fuel base path value wa h :
  h ⊆ (set str_to_number fuel base path value wa h).2.
Proof. by apply (keeps_set str_to_number h fuel base path value wa h). Qed.

Lemma reducer_inv_modify h0 lc lacc o h f :
  h0 !! lacc = None → lacc ≠ lc →
  reducer_inv h0 lc lacc o (VRef lacc) h →
  reducer_inv h0 lc lacc o (VRef lacc) (<[lacc := f]> h).
Proof.
  intros Hout Hne (_ & Hsub & Hlc). split_and!; [done| |].
  - by apply insert_subseteq_r.
  - by rewrite lookup_insert_ne.
Qed.

Lemma reducer_inv_alloc (h0 h : heap) lc o o' :
  h0 ⊆ h → h !! lc = Some o →
  let lacc := fresh_loc h in
  h0 !! lacc = None ∧ lacc ≠ lc
  ∧ reducer_inv h0 lc lacc o (VRef lacc) (<[lacc := o']> h).
Proof.
  intros Hsub Hlc lacc.
  assert (Hout : h0 !! lacc = None).
  { eapply lookup_weaken_None; [apply fresh_lookup|done]. }
  assert (Hne : lacc ≠ lc) by by apply fresh_loc_ne.
  split_and!; [done|done|]. split_and!; [done| |].
  - by apply insert_subseteq_r.
  - by rewrite lookup_insert_ne.
Qed.

(** One turn of a reducer: [nextBase], then the nested call, then a write
    into the accumulator. [read_value] is how the turn reads its value and
    [write] how it stores the result. *)
Lemma reducer_turn_failure h0 wa lv sg rest lc lacc fuel
    (read_value : M val) (paired : option val) (write : val → val → M unit) k acc h :
  heap_closed h0 →
  (∀ v, lv = Existing v → val_in h0 v) →
  h0 !! lacc = None → lacc ≠ lc →
  (∀ path lv b value h, (length path < fuel)%nat → h0 ⊆ h → rep h0 h lv b → val_in h0 value →
     error_of (set str_to_number fuel b path value wa h).1 = failure h0 wa lv path value) →
  (length rest < fuel)%nat →
  (∀ h, h0 ⊆ h → read_value h = match paired with
                              | Some v => (Ok v, h)
                              | None => (Throw TypeError, h)
                              end) →
  (∀ v, paired = Some v → val_in h0 v) →
  (∀ nv h, ∃ f, write (VRef lacc) nv h = (Ok (), <[lacc := f]> h)) →
  reducer_inv h0 lc lacc (level_obj h0 wa lv sg) acc h →
  let turn :=
    (nb ← nextBase (VRef lc) k (rest !! 0%nat) wa;
     v ← read_value;
     newValue ← set str_to_number fuel nb rest v wa;
     write acc newValue;;
     mret acc) h in
  error_of turn.1
  = match paired with
    | Some v => failure h0 wa (next_level h0 wa lv sg k (rest !! 0%nat)) rest v
    | None => Some TypeError
    end
  ∧ turn.1 ≠ OutOfFuel
  ∧ ∀ acc', turn.1 = Ok acc' → reducer_inv h0 lc lacc (level_obj h0 wa lv sg) acc' turn.2.
Proof.
  intros Hclosed Hlv Hout Hne IH Hlen Hread Hpaired Hwrite (-> & Hsub & Hlc) turn.
  subst turn. rewrite bind_run.
  destruct (next_base_run h0 h wa lv sg lc k (rest !! 0%nat) Hclosed Hsub Hlv Hlc)
    as (nb & h2 & -> & Hsub2 & Hrep & _).
  assert (Hsub02 : h0 ⊆ h2) by by etrans.
  rewrite bind_run, (Hread h2 Hsub02).
  destruct paired as [v|]; [|by split_and!].
  rewrite bind_run.
  pose proof (IH rest _ nb v h2 Hlen Hsub02 Hrep (Hpaired v eq_refl)) as Herr.
  pose proof (fuel_suffices_set str_to_number fuel nb rest v wa Hlen h2) as Hfuel.
  pose proof (set_extends fuel nb rest v wa h2) as Hsub3.
  destruct (set str_to_number fuel nb rest v wa h2) as [[nv|e|] h3]; cbn in *;
    [|by split_and!|done].
  rewrite bind_run. destruct (Hwrite nv h3) as [f ->]. rewrite ret_run. cbn.
  split_and!; [done|done|]. intros acc' [= <-].
  apply reducer_inv_modify; [done|done|]. split_and!; [done|by etrans; [|done]; etrans|].
  eapply lookup_weaken; [|done]. by eapply lookup_weaken.
Qed.

Lemma store_into_accumulator lacc k len nv h :
  ∃ f, (if key_lt_length str_to_number k len then array_store (VRef lacc) k nv
        else array_push (VRef lacc) nv) h = (Ok (), <[lacc := f]> h).
Proof. destruct (key_lt_length _ _ _); by eexists. Qed.

(** The setter fails exactly as [failure] computes from the caller's store. *)
Lemma set_failure h0 wa fuel :
  heap_closed h0 →
  ∀ path lv b value h,
    (length path < fuel)%nat → h0 ⊆ h → rep h0 h lv b → val_in h0 value →
    error_of (set str_to_number fuel b path value wa h).1 = failure h0 wa lv path value.
Proof.
  intros Hclosed. induction fuel as [|fuel IH]; intros path lv b value h Hlen Hsub Hrep Hvalue;
    [lia|].
  destruct path as [|sg rest]; [done|].
  assert (Hrest : (length rest < fuel)%nat) by (cbn in Hlen; lia).
  pose proof (rep_level_in _ _ _ _ Hrep) as Hlv.
  rewrite set_cons, bind_run.
  destruct (current_base_run h0 h wa lv b sg Hsub Hrep) as (lc & h1 & -> & Hsub1 & Hlc & _).
  assert (Hsub01 : h0 ⊆ h1) by by etrans.
  rewrite bind_run, read_run.
  assert (Harr : is_array h1 (VRef lc) = obj_is_array (level_obj h0 wa lv sg)).
  { cbn. by rewrite (deref_lookup _ _ _ Hlc). }
  rewrite Harr.
  destruct sg as [k|ks].
  - (* a single key *)
    assert (Hnested : ∀ (m : val → M val), (∀ nv h, error_of (m nv h).1 = None) → ∀ h1',
              h1 ⊆ h1' →
              error_of ((nb ← nextBase (VRef lc) k (rest !! 0%nat) wa;
                         newValue ← set str_to_number fuel nb rest value wa;
                         m newValue) h1').1
              = failure h0 wa (next_level h0 wa lv (Single k) k (rest !! 0%nat)) rest value).
    { intros m Hm h1' Hsub1'. rewrite bind_run.
      assert (Hsub01' : h0 ⊆ h1') by by etrans.
      destruct (next_base_run h0 h1' wa lv (Single k) lc k (rest !! 0%nat) Hclosed Hsub01' Hlv)
        as (nb & h2 & -> & Hsub2 & Hrep2 & _); [by eapply lookup_weaken|].
      rewrite bind_run.
      assert (Hsub02 : h0 ⊆ h2) by by etrans.
      pose proof (IH rest _ nb value h2 Hrest Hsub02 Hrep2 Hvalue) as Herr.
      pose proof (fuel_suffices_set str_to_number fuel nb rest value wa Hrest h2) as Hfuel.
      destruct (set str_to_number fuel nb rest value wa h2) as [[nv|e|] h3]; cbn in *;
        [|done..].
      by rewrite Hm. }
    cbn [failure]. destruct (obj_is_array _).
    + rewrite bind_run, read_run. apply Hnested; [|done].
      intros nv h'. by rewrite bind_run, read_run, alloc_run.
    + rewrite bind_run, read_run. apply Hnested; [|done].
      intros nv h'. by rewrite alloc_run.
  - (* a group *)
    cbn [failure]. destruct (obj_is_array (level_obj h0 wa lv (Group ks))) eqn:Hkind.
    + rewrite bind_run, read_run, bind_run, alloc_run.
      destruct (reducer_inv_alloc h0 h1 lc _ (OArr (array_elems h1 (VRef lc)) ∅) Hsub01 Hlc)
        as (Hout & Hne & Hinv).
      set (lacc := fresh_loc h1) in *. set (h2 := <[lacc := _]> h1) in *.
      assert (Hsub02 : h0 ⊆ h2) by apply Hinv.
      unfold reduceWithArray. rewrite bind_run, read_run.
      rewrite (is_array_extends h0 h2) by done.
      destruct (is_array h0 value) eqn:Hvalues; cbn [negb]; [|done].
      unfold reduce.
      eapply (reduce_from_failure _ _ (reducer_inv h0 lc lacc (level_obj h0 wa lv (Group ks))));
        [|done].
      intros acc k i h' Hinv'.
      pose proof Hinv' as (-> & Hsub' & _).
      pose proof (reducer_turn_failure h0 wa lv (Group ks) rest lc lacc fuel
                    (read (λ h, array_nth h value i)) (Some (array_nth h0 value i))
                    (λ acc nv, len ← read (λ h, length (array_elems h acc));
                               if key_lt_length str_to_number k len
                               then array_store acc k nv else array_push acc nv)
                    k (VRef lacc) h' Hclosed Hlv Hout Hne IH Hrest) as Hturn.
      apply Hturn; [| | |done].
      * intros h'' Hsub''. by rewrite read_run, (array_nth_extends h0 h'').
      * intros v [= <-]. by apply array_nth_in.
      * intros nv h''. rewrite bind_run, read_run. apply store_into_accumulator.
    + rewrite bind_run, read_run, bind_run, alloc_run, bind_run.
      set (h2 := <[fresh_loc h1 := OMap ∅]> h1).
      assert (Hsub12 : h1 ⊆ h2) by apply insert_subseteq, fresh_lookup.
      assert (Hlc2 : h2 !! lc = Some (level_obj h0 wa lv (Group ks))) by by eapply lookup_weaken.
      assert (Hsub02 : h0 ⊆ h2) by by etrans.
      unfold reduceWithObject. rewrite bind_run, read_run.
      rewrite (is_array_extends h0 h2) by done.
      destruct (reducer_inv_alloc h0 h2 lc _ (OMap ∅) Hsub02 Hlc2) as (Hout & Hne & Hinv).
      set (lacc := fresh_loc h2) in *. set (h3 := <[lacc := _]> h2) in *.
      assert (Hafter : ∀ r : result val * heap,
                r.1 ≠ OutOfFuel →
                error_of (match r with
                          | (Ok a, h') =>
                              (new_props ← read (λ h, object_props h a);
                               alloc (OMap (new_props ∪ object_props h1 (VRef lc)))) h'
                          | (Throw e, h') => (Throw e, h')
                          | (OutOfFuel, h') => (OutOfFuel, h')
                          end).1 = error_of r.1).
      { intros [[a|e|] h'] Hr; cbn in *; [|done..]. by rewrite bind_run, read_run, alloc_run. }
      destruct (is_array h0 value) eqn:Hvalues.
      * rewrite bind_run, alloc_run. fold lacc h3. unfold reduce.
        edestruct (reduce_from_failure
                     (λ acc k index,
                        nb ← nextBase (VRef lc) k (rest !! 0%nat) wa;
                        vi ← read (λ h, array_nth h value index);
                        newValue ← set str_to_number fuel nb (drop 1 (Group ks :: rest)) vi wa;
                        object_store acc k newValue;; mret acc)
                     (λ i k, failure h0 wa (next_level h0 wa lv (Group ks) k (rest !! 0%nat))
                               rest (array_nth h0 value i))
                     (reducer_inv h0 lc lacc (level_obj h0 wa lv (Group ks))) ks) as [Herr Hfuel];
          [|exact Hinv|].
        -- intros acc k i h' Hinv'.
           pose proof Hinv' as (-> & Hsub' & _).
           pose proof (reducer_turn_failure h0 wa lv (Group ks) rest lc lacc fuel
                         (read (λ h, array_nth h value i)) (Some (array_nth h0 value i))
                         (λ acc nv, object_store acc k nv)
                         k (VRef lacc) h' Hclosed Hlv Hout Hne IH Hrest) as Hturn.
           apply Hturn; [| | |done].
           ++ intros h'' Hsub''. by rewrite read_run, (array_nth_extends h0 h'').
           ++ intros v [= <-]. by apply array_nth_in.
           ++ intros nv h''. by eexists.
        -- rewrite <- Herr. by apply Hafter.
      * rewrite bind_run, alloc_run. fold lacc h3. unfold reduce.
        edestruct (reduce_from_failure
                     (λ acc k (_ : nat),
                        nb ← nextBase (VRef lc) k (rest !! 0%nat) wa;
                        vk ← value_prop value k;
                        newValue ← set str_to_number fuel nb (drop 1 (Group ks :: rest)) vk wa;
                        object_store acc k newValue;; mret acc)
                     (λ (_ : nat) k,
                        match value_prop_pure h0 value k with
                        | Some vk =>
                            failure h0 wa (next_level h0 wa lv (Group ks) k (rest !! 0%nat)) rest vk
                        | None => Some TypeError
                        end)
                     (reducer_inv h0 lc lacc (level_obj h0 wa lv (Group ks))) ks) as [Herr Hfuel];
          [|exact Hinv|].
        -- intros acc k i h' Hinv'.
           pose proof Hinv' as (-> & Hsub' & _).
           pose proof (reducer_turn_failure h0 wa lv (Group ks) rest lc lacc fuel
                         (value_prop value k) (value_prop_pure h0 value k)
                         (λ acc nv, object_store acc k nv)
                         k (VRef lacc) h' Hclosed Hlv Hout Hne IH Hrest) as Hturn.
           apply Hturn; [| | |done].
           ++ intros h'' Hsub''. by apply value_prop_run.
           ++ intros v Hv. by eapply value_prop_pure_in.
           ++ intros nv h''. by eexists.
        -- rewrite <- Herr. by apply Hafter.
Qed.

End SetterFailure.

(** ** Failures and reached groups *)



Lemma value_prop_pure_None h values k :
  value_prop_pure h values k = None ↔ values = VUndef ∨ values = VNull.
Proof.
  destruct values; cbn; split; try done; try (by left); try (by right); by intros [|].
Qed.



Section Raises.

Variable str_to_number : string → jsnum.

(** The error of [safeSet]: none when the path is not a non-empty array or
    the pre-check returns early, the failure of the setter otherwise. *)
Lemma safeSet_error h base initialPath value opts :
  heap_closed h → val_in h base → val_in h value →
  error_of (safeSet str_to_number base initialPath value opts h).1
  = match normalize_path initialPath with
    | PathArray p =>
        if decide (safe opts = true
                   ∧ recursiveEqual (S (length p)) h base p value (equality opts) = Some true)
        then None
        else failure h (withArrays opts) (Existing base) p value
    | _ => None
    end.
Proof.
  intros Hclosed Hbase Hvalue. unfold safeSet.
  destruct (normalize_path initialPath) as [s|p|]; [done| |done].
  destruct p as [|sg rest].
  { cbn [length Nat.ltb Nat.leb]. rewrite ret_run. cbn [fst error_of].
    by destruct (decide (safe opts = true ∧ _)). }
  set (p := sg :: rest).
  assert (Hlen : (length p <? 1)%nat = false) by done.
  rewrite Hlen, bind_run.
  assert (Hset : error_of (set str_to_number (S (length p)) base p value (withArrays opts) h).1
                 = failure h (withArrays opts) (Existing base) p value).
  { apply set_failure; [done|lia|done|by split|done]. }
  destruct (safe opts).
  - destruct (recursiveEqual_is_Some (S (length p)) h base p value (equality opts)) as [b Hpre];
      [lia|].
    rewrite Hpre. destruct b.
    + by rewrite decide_True.
    + rewrite decide_False; [done|]. by intros [_ [=]].
  - rewrite ret_run, decide_False; [done|]. by intros [[=] _].
Qed.


End Raises.



(** ** Structural sharing *)



Lemma lookup_splice_eq (l : list val) n v :
  (n ≤ length l)%nat → (take n l ++ v :: drop (S n) l) !! n = Some v.
Proof.
  intros Hn. rewrite lookup_app_r by (rewrite length_take; lia).
  rewrite length_take, Nat.min_l by lia. by rewrite Nat.sub_diag.
Qed.




Section SetterShares.

Variable str_to_number : string → jsnum.

Lemma bind_ok_inv {A B} (m : M A) (f : A → M B) h b h' :
  (m ≫= f) h = (Ok b, h') → ∃ a h1, m h = (Ok a, h1) ∧ f a h1 = (Ok b, h').
Proof. by intros ?%bind_ok. Qed.


Lemma obj_get_map props k : obj_get (OMap props) k = default VUndef (props !! key_to_string k).
Proof. by destruct k. Qed.



Lemma read_ok_inv {A} (f : heap → A) h a h' : read f h = (Ok a, h') → a = f h ∧ h' = h.
Proof. by intros [= <- <-]. Qed.

Lemma alloc_ok_inv o h v h' :
  alloc o h = (Ok v, h') → v = VRef (fresh_loc h) ∧ h' = <[fresh_loc h := o]> h.
Proof. by intros [= <- <-]. Qed.



End SetterShares.

Section Sharing.

Variable str_to_number : string → jsnum.


End Sharing.



(** * Further properties of the setter

    What follows covers behaviour of [recursiveEqual], [nextBase], the two
    reducers, [set] and [safeSet] beyond the claims above. *)

(** ** The pre-check read as a path lookup *)

Lemma recursiveEqual_single_keys h value equality ks : ∀ base,
  ks ≠ [] →
  recursiveEqual (S (length ks)) h base (Single <$> ks) value equality
  = Some (objects_along h base ks
          && same_value h equality (read_path h base ks) value).
Proof.
  induction ks as [|k ks IH]; intros base Hne; [done|].
  destruct ks as [|k2 ks].
  - cbn. destruct (is_object base); cbn; [|done].
    by destruct equality.
  - change (length (k :: k2 :: ks)) with (S (length (k2 :: ks))).
    change (recursiveEqual (S (S (length (k2 :: ks)))) h base (Single <$> k :: k2 :: ks) value equality)
      with (if negb (is_object base) then Some false
            else recursiveEqual (S (length (k2 :: ks))) h (prop h base k) (Single <$> k2 :: ks) value equality).
    change (objects_along h base (k :: k2 :: ks))
      with (is_object base && objects_along h (prop h base k) (k2 :: ks)).
    change (read_path h base (k :: k2 :: ks)) with (read_path h (prop h base k) (k2 :: ks)).
    destruct (is_object base); cbn [negb andb]; [|done].
    by apply IH.
Qed.



(** ** Paths without a group *)

Lemma token_segments_single t : ∃ ks, token_segments t = Single <$> ks.
Proof.
  unfold token_segments. destruct (exec_bracket t 0) as [[index digits]|].
  - by eexists [_; _].
  - by eexists [_].
Qed.

Lemma parse_path_single_keys s : ∃ ks, parse_path s = Single <$> ks.
Proof.
  unfold parse_path. induction (split_dot s) as [|t ts [ks IH]]; [by exists []|].
  destruct (token_segments_single t) as [ks0 Ht].
  exists (ks0 ++ ks). cbn. by rewrite Ht, IH, fmap_app.
Qed.

Lemma split_dot_cons s : ∃ t ts, split_dot s = t :: ts.
Proof.
  induction s as [|c s (t & ts & IH)]; cbn; [by eexists _, _|].
  destruct (Ascii.eqb c "."); [by eexists _, _|].
  rewrite IH. by eexists _, _.
Qed.

Lemma token_segments_cons t : ∃ sg sgs, token_segments t = sg :: sgs.
Proof.
  unfold token_segments. destruct (exec_bracket t 0) as [[index digits]|]; by eexists _, _.
Qed.

Lemma parse_path_cons s : ∃ sg sgs, parse_path s = sg :: sgs.
Proof.
  unfold parse_path. destruct (split_dot_cons s) as (t & ts & ->). cbn.
  destruct (token_segments_cons t) as (sg & sgs & ->). by eexists _, _.
Qed.

Section GroupFree.

Variable str_to_number : string → jsnum.

Lemma set_single_keys_returns wa value fuel : ∀ ks base h,
  (length ks < fuel)%nat →
  ∃ r h', set str_to_number fuel base (Single <$> ks) value wa h = (Ok r, h').
Proof.
  induction fuel as [|fuel IH]; intros ks base h Hlen; [lia|].
  destruct ks as [|k ks].
  - cbn [fmap list_fmap]. rewrite set_nil. by eexists _, _.
  - cbn [fmap list_fmap]. rewrite set_cons.
    assert (∃ cb h1,
      (if is_object base then mret base
       else if coerce_to_array (Single k) wa then alloc (OArr [] ∅)
       else alloc (OMap ∅)) h = (Ok cb, h1)) as (cb & h1 & Hcb).
    { destruct (is_object base); [by eexists _, _|].
      destruct (coerce_to_array (Single k) wa); by eexists _, _. }
    rewrite bind_run, Hcb, bind_run, read_run.
    destruct (nextBase_total cb k ((Single <$> ks) !! 0%nat) wa h1) as (nb & h2 & Hnb & _).
    destruct (IH ks nb h2) as (nv & h3 & Hnv); [cbn in Hlen; lia|].
    destruct (is_array h1 cb).
    + rewrite bind_run, read_run, bind_run, Hnb, bind_run, Hnv, bind_run, read_run, alloc_run.
      by eexists _, _.
    + rewrite bind_run, read_run, bind_run, Hnb, bind_run, Hnv, alloc_run.
      by eexists _, _.
Qed.

(** X2. A call whose path holds no group, that is any string path, any array
    of single keys, or no path at all, returns a value: it neither throws nor
    runs out of fuel, whatever the base, the value and the options are. *)
Theorem safeSet_group_free_returns h base initialPath value opts :
  group_free initialPath →
  ∃ r h', safeSet str_to_number base initialPath value opts h = (Ok r, h').
Proof.
  intros Hfree.
  assert (∃ ks, normalize_path initialPath = PathArray (Single <$> ks)
              ∨ (∀ p, normalize_path initialPath ≠ PathArray p)) as [ks Hn].
  { destruct initialPath as [s|p|]; unfold normalize_path.
    - destruct (0 <? String.length s)%nat.
      + destruct (parse_path_single_keys s) as [ks ->]. exists ks. by left.
      + exists []. right. intros p0 Hp0. discriminate Hp0.
    - destruct Hfree as [ks ->]. exists ks. by left.
    - exists []. right. intros p0 Hp0. discriminate Hp0. }
  unfold safeSet. destruct Hn as [->|Hn].
  - destruct (length (Single <$> ks) <? 1)%nat; [by eexists _, _|].
    rewrite bind_run.
    destruct (safe opts).
    + destruct (recursiveEqual_is_Some (S (length (Single <$> ks))) h base (Single <$> ks)
                  value (equality opts)) as [b ->]; [lia|].
      destruct b; [by eexists _, _|].
      apply set_single_keys_returns. rewrite length_fmap. lia.
    + rewrite ret_run. apply set_single_keys_returns. rewrite length_fmap. lia.
  - destruct (normalize_path initialPath) as [s|p|]; [by eexists _, _| |by eexists _, _].
    by destruct (Hn p).
Qed.

End GroupFree.

(** X2 on the base [null] with the string path [a.b[2].c] in safe mode. *)
Lemma safeSet_group_free_returns_witness :
  group_free (PathString "a.b[2].c")
  ∧ ∃ r h', safeSet decimal_to_number VNull (PathString "a.b[2].c") (VNum 1)
              {| withArrays := true; equality := None; safe := true |} ∅ = (Ok r, h').
Proof.
  split; [exact I|]. by apply (safeSet_group_free_returns decimal_to_number).
Defined.

(** ** More on the path parser *)

Lemma split_dot_app s1 s2 :
  split_dot (s1 +:+ "." +:+ s2) = split_dot s1 ++ split_dot s2.
Proof.
  induction s1 as [|c s1 IH].
  - reflexivity.
  - change (String c s1 +:+ "." +:+ s2) with (String c (s1 +:+ "." +:+ s2)).
    cbn [split_dot]. destruct (Ascii.eqb c ".").
    + by rewrite IH.
    + rewrite IH. by destruct (split_dot_cons s1) as (t & ts & ->).
Qed.

(** X3. The parser works part by part: the path read from two strings joined
    by a dot is the path of the first followed by the path of the second.
    Empty parts, as in a doubled or a leading dot, are parsed as any other. *)
Theorem parse_path_dot s1 s2 :
  parse_path (s1 +:+ "." +:+ s2) = parse_path s1 ++ parse_path s2.
Proof.
  unfold parse_path. rewrite split_dot_app. apply flat_map_app.
Qed.

Lemma split_dot_no_dot s : no_dot s = true → split_dot s = [s].
Proof.
  induction s as [|c s IH]; [done|]. cbn.
  destruct (Ascii.eqb c "."); [done|]. cbn. intros Hs. by rewrite IH.
Qed.

Lemma no_dot_app s1 s2 : no_dot (s1 +:+ s2) = no_dot s1 && no_dot s2.
Proof.
  induction s1 as [|c s1 IH]; [done|].
  change (String c s1 +:+ s2) with (String c (s1 +:+ s2)). cbn [no_dot].
  by rewrite IH, andb_assoc.
Qed.

Lemma all_digits_no_dot ds : all_digits ds = true → no_dot ds = true.
Proof.
  induction ds as [|c ds IH]; [done|]. cbn [all_digits no_dot].
  intros [Hc Hds]%andb_true_iff. rewrite IH by done. rewrite andb_true_r.
  destruct (Ascii.eqb_spec c ".") as [->|]; [|done]. by vm_compute in Hc.
Qed.

Lemma bracket_digits_then ds tail :
  all_digits ds = true → bracket_digits (ds +:+ "]" +:+ tail) = Some ds.
Proof.
  induction ds as [|c ds IH]; [done|].
  change (String c ds +:+ "]" +:+ tail) with (String c (ds +:+ "]" +:+ tail)).
  cbn [all_digits bracket_digits]. intros [Hc Hds]%andb_true_iff.
  rewrite Hc, IH by done.
  destruct (Ascii.eqb_spec c "]") as [->|]; [by vm_compute in Hc|done].
Qed.

Lemma exec_bracket_first name ds tail : ∀ i,
  no_bracket name = true → all_digits ds = true →
  exec_bracket (name +:+ "[" +:+ ds +:+ "]" +:+ tail) i = Some ((i + String.length name)%nat, ds).
Proof.
  induction name as [|c name IH]; intros i Hname Hds.
  - change ("" +:+ "[" +:+ ds +:+ "]" +:+ tail) with (String "[" (ds +:+ "]" +:+ tail)).
    cbn [exec_bracket]. rewrite bracket_digits_then by done.
    cbn. by rewrite Nat.add_0_r.
  - change (String c name +:+ "[" +:+ ds +:+ "]" +:+ tail)
      with (String c (name +:+ "[" +:+ ds +:+ "]" +:+ tail)).
    cbn [no_bracket] in Hname. apply andb_true_iff in Hname as [Hc Hname].
    cbn [exec_bracket]. destruct (Ascii.eqb c "["); [done|].
    rewrite IH by done. cbn [String.length]. do 2 f_equal. lia.
Qed.

Lemma substring_prefix s t : String.substring 0 (String.length s) (s +:+ t) = s.
Proof.
  induction s as [|c s IH]; [by destruct t|].
  change (String c s +:+ t) with (String c (s +:+ t)). cbn. by rewrite IH.
Qed.

(** X4. In a dot-free token only the first bracketed index counts: a name
    free of brackets, then decimal digits in brackets that write a number
    below 2^53 (0 for no digit), then any text, parses to the name followed
    by that number. Whatever follows the first closing bracket, a second index
    included, is dropped. *)
Theorem token_first_bracket_only name ds tail n :
  no_bracket name = true → no_dot name = true →
  all_digits ds = true → no_dot tail = true →
  number_of_digits ds = Some n → key_exact (KNum n) = true →
  normalize_path (PathString (name +:+ "[" +:+ ds +:+ "]" +:+ tail))
  = PathArray [Single (KStr name); Single (KNum n)].
Proof.
  intros Hname Hdot Hds Htail Hn _.
  unfold normalize_path.
  assert ((0 <? String.length (name +:+ "[" +:+ ds +:+ "]" +:+ tail))%nat = true) as ->.
  { by destruct name. }
  unfold parse_path. rewrite split_dot_no_dot.
  2:{ by rewrite !no_dot_app, Hdot, Htail, (all_digits_no_dot ds). }
  cbn [flat_map]. rewrite app_nil_r. unfold token_segments.
  rewrite exec_bracket_first by done. cbn [Nat.add].
  rewrite substring_prefix. unfold number_of_digits in Hn. unfold number_of_digits.
  by rewrite Hn.
Qed.

(** X4 on the token [a[0][1]b], which parses to [a] and 0. *)
Lemma token_first_bracket_only_witness :
  (no_bracket "a" = true ∧ no_dot "a" = true ∧ all_digits "0" = true ∧ no_dot "[1]b" = true
   ∧ number_of_digits "0" = Some 0%N ∧ key_exact (KNum 0) = true)
  ∧ normalize_path (PathString ("a" +:+ "[" +:+ "0" +:+ "]" +:+ "[1]b"))
    = PathArray [Single (KStr "a"); Single (KNum 0)].
Proof.
  split; [by split_and!|]. by apply (token_first_bracket_only "a" "0" "[1]b" 0%N).
Defined.

(** X5. A non-empty string path always parses to a non-empty array of single
    keys: no string selects a group, and only the empty string takes the
    branch of [safeSet] that replaces the whole base. *)
Theorem string_path_is_nonempty_single_keys s :
  s ≠ "" →
  ∃ k ks, normalize_path (PathString s) = PathArray (Single <$> k :: ks).
Proof.
  intros Hs. unfold normalize_path.
  assert ((0 <? String.length s)%nat = true) as ->.
  { by destruct s. }
  destruct (parse_path_single_keys s) as [ks Hks].
  destruct (parse_path_cons s) as (sg & sgs & Hc).
  destruct ks as [|k ks]; [by rewrite Hks in Hc|].
  exists k, ks. by rewrite Hks.
Qed.

(** X5 on the string made of one dot. *)
Lemma string_path_is_nonempty_single_keys_witness :
  "." ≠ ""
  ∧ ∃ k ks, normalize_path (PathString ".") = PathArray (Single <$> k :: ks).
Proof.
  split; [done|]. by apply (string_path_is_nonempty_single_keys ".").
Defined.

(** ** One key on a container whose content is known *)

Lemma lookup_before_alloc (h h1 : heap) : h ⊆ h1 → h !! fresh_loc h1 = None.
Proof. intros Hsub. eapply lookup_weaken_None; [apply fresh_lookup|done]. Qed.

Lemma extends_alloc (h h1 : heap) o : h ⊆ h1 → h ⊆ <[fresh_loc h1 := o]> h1.
Proof. intros Hsub. etrans; [exact Hsub|]. apply insert_subseteq, fresh_lookup. Qed.

Lemma js_slice_to (l : list val) a :
  0 ≤ a → js_slice l (Fin 0) (Fin a) = take (Z.to_nat a) l.
Proof.
  intros Ha. unfold js_slice, clamp_index.
  replace (0 <? 0) with false by done.
  replace (a <? 0) with false by (symmetry; apply Z.ltb_ge; lia).
  replace (Z.to_nat (Z.min 0 (Z.of_nat (length l)))) with 0%nat by lia.
  rewrite drop_0, Nat.sub_0_r.
  destruct (decide (a ≤ Z.of_nat (length l))).
  - by replace (Z.min a (Z.of_nat (length l))) with a by lia.
  - replace (Z.min a (Z.of_nat (length l))) with (Z.of_nat (length l)) by lia.
    rewrite Nat2Z.id. rewrite !take_ge; [done|lia|lia].
Qed.

Lemma js_slice_from_at (l : list val) b :
  0 ≤ b → js_slice_from l (Fin b) = drop (Z.to_nat b) l.
Proof.
  intros Hb. unfold js_slice_from, js_slice, clamp_index.
  replace (b <? 0) with false by (symmetry; apply Z.ltb_ge; lia).
  rewrite take_ge by (rewrite length_drop; lia).
  destruct (decide (b ≤ Z.of_nat (length l))).
  - by replace (Z.min b (Z.of_nat (length l))) with b by lia.
  - replace (Z.min b (Z.of_nat (length l))) with (Z.of_nat (length l)) by lia.
    rewrite Nat2Z.id. rewrite !drop_ge; [done|lia|lia].
Qed.

Section OneKey.

Variable str_to_number : string → jsnum.

Lemma set_last_key_on_array h l s named k v wa fuel :
  h !! l = Some (OArr s named) →
  ∃ l' h',
    set str_to_number (S (S fuel)) (VRef l) [Single k] v wa h = (Ok (VRef l'), h')
    ∧ h ⊆ h' ∧ h !! l' = None
    ∧ h' !! l' = Some (OArr (js_slice s (Fin 0) (key_to_integer str_to_number k)
                              ++ v :: js_slice_from s (key_plus_one str_to_number k)) ∅).
Proof.
  intros Hl. rewrite set_cons. cbn [is_object].
  rewrite bind_run, ret_run, bind_run, read_run, (is_array_arr _ _ _ _ Hl).
  rewrite bind_run, read_run, (array_elems_arr _ _ _ _ Hl).
  destruct (nextBase_total (VRef l) k ([] !! 0%nat) wa h) as (nb & h1 & Hnb & Hsub).
  rewrite bind_run, Hnb, set_nil, bind_run, ret_run, bind_run, read_run.
  rewrite (array_elems_arr h1 l s named) by (by eapply lookup_weaken).
  rewrite alloc_run. eexists _, _. split; [done|].
  split; [by apply extends_alloc|]. split; [by apply lookup_before_alloc|].
  by rewrite lookup_insert_eq.
Qed.

Lemma set_last_key_on_map h l props k v wa fuel :
  h !! l = Some (OMap props) →
  ∃ l' h',
    set str_to_number (S (S fuel)) (VRef l) [Single k] v wa h = (Ok (VRef l'), h')
    ∧ h ⊆ h' ∧ h !! l' = None
    ∧ h' !! l' = Some (OMap (<[key_to_string k := v]> props)).
Proof.
  intros Hl. rewrite set_cons. cbn [is_object].
  rewrite bind_run, ret_run, bind_run, read_run, (is_array_map _ _ _ Hl).
  rewrite bind_run, read_run, (object_props_map _ _ _ Hl).
  destruct (nextBase_total (VRef l) k ([] !! 0%nat) wa h) as (nb & h1 & Hnb & Hsub).
  rewrite bind_run, Hnb, set_nil, bind_run, ret_run.
  rewrite alloc_run. eexists _, _. split; [done|].
  split; [by apply extends_alloc|]. split; [by apply lookup_before_alloc|].
  by rewrite lookup_insert_eq.
Qed.


Lemma safeSet_unsafe_runs_set base p value wa eq h :
  p ≠ [] →
  safeSet str_to_number base (PathArray p) value
    {| withArrays := wa; equality := eq; safe := false |} h
  = set str_to_number (S (length p)) base p value wa h.
Proof.
  intros Hp. unfold safeSet. cbn [normalize_path safe withArrays].
  destruct p as [|sg p]; [done|]. cbn [length Nat.ltb Nat.leb].
  by rewrite bind_run, ret_run.
Qed.

(** X6. With no usable path (something that is neither a string nor an
    array, the empty string, or the empty array) [safeSet] returns [value]
    itself and creates nothing; the [safe] option plays no part. *)
Theorem safeSet_without_path_returns_value h base initialPath value opts :
  initialPath = PathOther ∨ initialPath = PathString "" ∨ initialPath = PathArray [] →
  safeSet str_to_number base initialPath value opts h = (Ok value, h).
Proof.
  intros [->|[->| ->]]; unfold safeSet; cbn; rewrite ret_run; by case_decide; subst.
Qed.

(** X7. Writing at an index within an array gives a new array of the same
    length in which that element alone is replaced; the original array is
    left as it was. *)
Theorem safeSet_index_in_range h l s named n v wa eq :
  h !! l = Some (OArr s named) → (N.to_nat n < length s)%nat →
  ∃ l' h',
    safeSet str_to_number (VRef l) (PathArray [Single (KNum n)]) v
      {| withArrays := wa; equality := eq; safe := false |} h = (Ok (VRef l'), h')
    ∧ h ⊆ h' ∧ h !! l' = None
    ∧ h' !! l' = Some (OArr (<[N.to_nat n := v]> s) ∅).
Proof.
  intros Hl Hn. rewrite safeSet_unsafe_runs_set by done.
  destruct (set_last_key_on_array h l s named (KNum n) v wa 0 Hl) as (l' & h' & Hrun & Hsub & Hnew & Hl').
  exists l', h'. split; [done|]. split; [done|]. split; [done|].
  rewrite Hl'. cbn [key_to_integer key_plus_one].
  rewrite js_slice_before, js_slice_after. do 2 f_equal.
  symmetry. by apply insert_take_drop.
Qed.

(** X8. Writing one exact key (a string, or a number below 2^53) of a plain
    object gives a new object holding the properties of the original with the
    value stored under the string form of the key, so that the number 0 and
    the string of the digit 0 name the same property. *)
Theorem safeSet_key_on_object h l props k v wa eq :
  h !! l = Some (OMap props) →
  key_exact k = true →
  ∃ l' h',
    safeSet str_to_number (VRef l) (PathArray [Single k]) v
      {| withArrays := wa; equality := eq; safe := false |} h = (Ok (VRef l'), h')
    ∧ h ⊆ h' ∧ h !! l' = None
    ∧ h' !! l' = Some (OMap (<[key_to_string k := v]> props)).
Proof.
  intros Hl _. rewrite safeSet_unsafe_runs_set by done.
  by apply set_last_key_on_map.
Qed.

(** X9. A string key applied to an array is handed to [slice] as it is, and
    [key + 1] is a concatenation: when the key converts to the integer [a]
    and the key followed by the character 1 converts to [b], both
    non-negative, the result is the first [a] elements, the new value, and
    the elements from position [b] on. No element is replaced when [b] is
    [a], and elements are lost when [b] exceeds [a + 1]. *)
Theorem safeSet_string_key_on_array h l s named name a b v wa eq :
  h !! l = Some (OArr s named) →
  to_integer_or_infinity (str_to_number name) = Fin a → 0 ≤ a →
  to_integer_or_infinity (str_to_number (name +:+ "1")) = Fin b → 0 ≤ b →
  ∃ l' h',
    safeSet str_to_number (VRef l) (PathArray [Single (KStr name)]) v
      {| withArrays := wa; equality := eq; safe := false |} h = (Ok (VRef l'), h')
    ∧ h ⊆ h' ∧ h !! l' = None
    ∧ h' !! l' = Some (OArr (take (Z.to_nat a) s ++ v :: drop (Z.to_nat b) s) ∅).
Proof.
  intros Hl Ha Ha0 Hb Hb0. rewrite safeSet_unsafe_runs_set by done.
  destruct (set_last_key_on_array h l s named (KStr name) v wa 0 Hl) as (l' & h' & Hrun & Hsub & Hnew & Hl').
  exists l', h'. split; [done|]. split; [done|]. split; [done|].
  rewrite Hl'. cbn [key_to_integer key_plus_one]. rewrite Ha, Hb.
  by rewrite js_slice_to, js_slice_from_at.
Qed.


End OneKey.

Section MissingLevel.

Variable str_to_number : string → jsnum.

(** X11. Below an exact key of a plain object whose value is falsy (0, the
    empty string, false, null) or absent, the name being one that
    [Object.prototype] does not define, [nextBase] puts a new container and
    the falsy value is lost: an array holding only the value when
    [withArrays] is set and the next key is a number, whatever the index, and
    otherwise an object with the value under the next key, an exact key. *)
Theorem safeSet_creates_missing_level h l props k k2 v wa eq :
  h !! l = Some (OMap props) →
  truthy (default VUndef (props !! key_to_string k)) = false →
  key_exact k = true → key_exact k2 = true →
  plain_read (OMap props) k = true →
  ∃ l' la h',
    safeSet str_to_number (VRef l) (PathArray [Single k; Single k2]) v
      {| withArrays := wa; equality := eq; safe := false |} h = (Ok (VRef l'), h')
    ∧ h ⊆ h' ∧ h !! l' = None ∧ h !! la = None
    ∧ h' !! l' = Some (OMap (<[key_to_string k := VRef la]> props))
    ∧ h' !! la = Some (if wa && is_number_seg (Some (Single k2)) then OArr [v] ∅
                       else OMap {[ key_to_string k2 := v ]}).
Proof.
  intros Hl Hchild _ _ _. rewrite safeSet_unsafe_runs_set by done. cbn [length].
  rewrite set_cons. cbn [is_object lookup list_lookup].
  rewrite bind_run, ret_run, bind_run, read_run, (is_array_map _ _ _ Hl).
  rewrite bind_run, read_run, (object_props_map _ _ _ Hl).
  rewrite bind_run, nextBase_absent by (by rewrite (prop_map _ _ _ _ Hl)).
  set (h1 := <[fresh_loc h := _]> h).
  assert (h ⊆ h1) as Hsub1 by apply insert_subseteq, fresh_lookup.
  assert (∃ la h2,
    set str_to_number 2 (VRef (fresh_loc h)) [Single k2] v wa h1 = (Ok (VRef la), h2)
    ∧ h1 ⊆ h2 ∧ h1 !! la = None
    ∧ h2 !! la = Some (if wa && is_number_seg (Some (Single k2)) then OArr [v] ∅
                       else OMap {[ key_to_string k2 := v ]})) as (la & h2 & Hrun & Hsub2 & Hla1 & Hla).
  { subst h1. destruct (wa && is_number_seg (Some (Single k2))) eqn:Hc.
    - destruct k2 as [n|name]; [|by rewrite andb_false_r in Hc].
      destruct (set_last_key_on_array str_to_number (<[fresh_loc h := OArr [] ∅]> h)
                  (fresh_loc h) [] ∅ (KNum n) v wa 0)
        as (la & h2 & Hrun & Hsub & Hnew & Hla); [apply lookup_insert_eq|].
      exists la, h2. split; [done|]. split; [done|]. split; [done|].
      rewrite Hla. cbn [key_to_integer key_plus_one].
      by rewrite js_slice_before, js_slice_after, take_nil, drop_nil.
    - destruct (set_last_key_on_map str_to_number (<[fresh_loc h := OMap ∅]> h)
                  (fresh_loc h) ∅ k2 v wa 0)
        as (la & h2 & Hrun & Hsub & Hnew & Hla); [apply lookup_insert_eq|].
      exists la, h2. split; [done|]. split; [done|]. split; [done|].
      by rewrite Hla, insert_empty. }
  rewrite bind_run, Hrun, alloc_run.
  exists (fresh_loc h2), la, (<[fresh_loc h2 := OMap (<[key_to_string k := VRef la]> props)]> h2).
  split; [done|].
  split; [apply extends_alloc; by etrans|].
  split; [apply lookup_before_alloc; by etrans|].
  split; [by eapply lookup_weaken_None|].
  split; [by rewrite lookup_insert_eq|].
  rewrite lookup_insert_ne; [done|]. apply fresh_loc_ne. by rewrite Hla.
Qed.

End MissingLevel.

(** X11 on [{ n: 0 }] with the path [n, 3] and [withArrays]. *)
Lemma safeSet_creates_missing_level_witness :
  let h : heap := {[ 1%positive := OMap {[ "n" := VNum 0 ]} ]} in
  (h !! 1%positive = Some (OMap {[ "n" := VNum 0 ]})
   ∧ truthy (default VUndef (({[ "n" := VNum 0 ]} : gmap string val) !! key_to_string (KStr "n"))) = false
   ∧ key_exact (KStr "n") = true ∧ key_exact (KNum 3) = true
   ∧ plain_read (OMap {[ "n" := VNum 0 ]}) (KStr "n") = true)
  ∧ ∃ l' la h',
      safeSet decimal_to_number (VRef 1%positive) (PathArray [Single (KStr "n"); Single (KNum 3)]) (VStr "x")
        {| withArrays := true; equality := None; safe := false |} h = (Ok (VRef l'), h')
      ∧ h ⊆ h' ∧ h !! l' = None ∧ h !! la = None
      ∧ h' !! l' = Some (OMap (<[key_to_string (KStr "n") := VRef la]> {[ "n" := VNum 0 ]}))
      ∧ h' !! la = Some (if true && is_number_seg (Some (Single (KNum 3))) then OArr [VStr "x"] ∅
                         else OMap {[ key_to_string (KNum 3) := VStr "x" ]}).
Proof.
  intros h. split; [by split_and!|].
  by apply (safeSet_creates_missing_level decimal_to_number h 1%positive {[ "n" := VNum 0 ]}).
Defined.

(** ** Reading back what was written *)

Lemma holds_extends (h h' : heap) ks : ∀ r v, holds h r ks v → h ⊆ h' → holds h' r ks v.
Proof.
  induction ks as [|k ks IH]; intros r v Hr Hsub; [done|].
  destruct Hr as (l & o & -> & Hl & Hr). exists l, o.
  split; [done|]. split; [by eapply lookup_weaken|]. by apply IH.
Qed.

Lemma holds_read_path h ks : ∀ r v, holds h r ks v → read_path h r ks = v.
Proof.
  induction ks as [|k ks IH]; intros r v Hr; [done|].
  destruct Hr as (l & o & -> & Hl & Hr). cbn. rewrite (deref_lookup _ _ _ Hl). by apply IH.
Qed.

Lemma holds_objects_along h ks : ∀ r v, holds h r ks v → objects_along h r ks = true.
Proof.
  induction ks as [|k ks IH]; intros r v Hr; [done|].
  destruct Hr as (l & o & -> & Hl & Hr). cbn. rewrite (deref_lookup _ _ _ Hl). by eapply IH.
Qed.

Section ReadBack.

Variable str_to_number : string → jsnum.

Lemma set_holds h0 wa fuel :
  heap_closed h0 →
  ∀ ks lv b value h r h',
    (length ks < fuel)%nat → h0 ⊆ h → rep h0 h lv b →
    fits h0 wa lv (Single <$> ks) →
    set str_to_number fuel b (Single <$> ks) value wa h = (Ok r, h') →
    holds h' r ks value.
Proof.
  intros Hclosed. induction fuel as [|fuel IH];
    intros ks lv b value h r h' Hlen Hsub Hrep Hfits Hrun; [lia|].
  destruct ks as [|k ks].
  - cbn [fmap list_fmap] in Hrun. rewrite set_nil, ret_run in Hrun. by injection Hrun as -> _.
  - assert (Hrest : (length ks < fuel)%nat) by (cbn in Hlen; lia).
    pose proof (rep_level_in _ _ _ _ Hrep) as Hlv.
    change (Single <$> k :: ks) with (Single k :: (Single <$> ks)) in Hrun, Hfits.
    destruct Hfits as [Hseg Hunder].
    rewrite set_cons in Hrun.
    apply bind_ok_inv in Hrun as (cb & h1 & Hcb & Hrun).
    destruct (current_base_run h0 h wa lv b (Single k) Hsub Hrep)
      as (lc & h1' & Hcb' & Hsub1 & Hlc & _).
    rewrite Hcb in Hcb'. injection Hcb' as -> <-.
    assert (Hsub01 : h0 ⊆ h1) by by etrans.
    apply bind_ok_inv in Hrun as (isarr & hx & Hisarr & Hrun).
    apply read_ok_inv in Hisarr as [-> ->].
    destruct (next_base_run h0 h1 wa lv (Single k) lc k ((Single <$> ks) !! 0%nat)
                Hclosed Hsub01 Hlv Hlc) as (nb' & h2' & Hnb' & Hsub2 & Hrep2 & _).
    destruct (level_obj h0 wa lv (Single k)) as [elems named|props] eqn:Hobj.
    + rewrite (is_array_arr _ _ _ _ Hlc) in Hrun.
      destruct k as [n|s]; [|done]. cbn in Hseg.
      apply bind_ok_inv in Hrun as (before & hx & Hbefore & Hrun).
      apply read_ok_inv in Hbefore as [-> ->].
      rewrite (array_elems_arr _ _ _ _ Hlc) in Hrun.
      cbn [key_to_integer] in Hrun. rewrite js_slice_before in Hrun.
      apply bind_ok_inv in Hrun as (nb & h2 & Hnb & Hrun).
      rewrite Hnb in Hnb'. injection Hnb' as <- <-.
      apply bind_ok_inv in Hrun as (nv & h3 & Hset & Hrun).
      assert (Hnv : holds h3 nv ks value).
      { eapply IH; [done|by etrans|done| |done]. apply Hunder. by left. }
      pose proof (set_extends str_to_number fuel nb ((Single <$> ks)) value wa h2) as Hsub3.
      rewrite Hset in Hsub3. cbn in Hsub3.
      assert (Hlc3 : h3 !! lc = Some (OArr elems named)).
      { eapply lookup_weaken; [|done]. by eapply lookup_weaken. }
      apply bind_ok_inv in Hrun as (after & hx & Hafter & Hrun).
      apply read_ok_inv in Hafter as [-> ->].
      rewrite (array_elems_arr _ _ _ _ Hlc3) in Hrun.
      cbn [key_plus_one] in Hrun. rewrite js_slice_after in Hrun.
      apply alloc_ok_inv in Hrun as [-> ->].
      eexists _, _. split; [done|]. split; [by rewrite lookup_insert_eq|].
      cbn [obj_get]. rewrite lookup_splice_eq by done. cbn [default].
      eapply holds_extends; [done|]. apply insert_subseteq, fresh_lookup.
    + rewrite (is_array_map _ _ _ Hlc) in Hrun.
      apply bind_ok_inv in Hrun as (own & hx & Hown & Hrun).
      apply read_ok_inv in Hown as [-> ->].
      rewrite (object_props_map _ _ _ Hlc) in Hrun.
      apply bind_ok_inv in Hrun as (nb & h2 & Hnb & Hrun).
      rewrite Hnb in Hnb'. injection Hnb' as <- <-.
      apply bind_ok_inv in Hrun as (nv & h3 & Hset & Hrun).
      assert (Hnv : holds h3 nv ks value).
      { eapply IH; [done|by etrans|done| |done]. apply Hunder. by left. }
      apply alloc_ok_inv in Hrun as [-> ->].
      eexists _, _. split; [done|]. split; [by rewrite lookup_insert_eq|].
      rewrite obj_get_map, lookup_insert_eq. cbn [default].
      eapply holds_extends; [done|]. apply insert_subseteq, fresh_lookup.
Qed.

(** X12. Round trip: after an update along single keys, each of them applied
    to an array being an index no greater than its length, following the same
    keys from the result leads to the value written; the update itself always
    returns, whatever the original held along the path. *)
Theorem safeSet_then_read h base ks value wa eq :
  heap_closed h → val_in h base →
  fits h wa (Existing base) (Single <$> ks) →
  ∃ r h',
    safeSet str_to_number base (PathArray (Single <$> ks)) value
      {| withArrays := wa; equality := eq; safe := false |} h = (Ok r, h')
    ∧ read_path h' r ks = value.
Proof.
  intros Hclosed Hbase Hfits.
  destruct ks as [|k ks].
  - exists value, h. split; [|done].
    unfold safeSet. cbn. rewrite ret_run. by case_decide; subst.
  - rewrite safeSet_unsafe_runs_set by done.
    destruct (set_single_keys_returns str_to_number wa value
                (S (length (Single <$> k :: ks))) (k :: ks) base h) as (r & h' & Hrun).
    { rewrite length_fmap. lia. }
    exists r, h'. split; [done|].
    apply holds_read_path.
    eapply (set_holds h wa _ Hclosed (k :: ks) (Existing base)); [| | |done|done].
    + rewrite length_fmap. lia.
    + done.
    + done.
Qed.

(** X13. An update followed by a safe update of the same value along the same
    path of single keys changes nothing the second time: the second call
    returns the very reference the first one returned and leaves the store as
    it is. *)
Theorem safeSet_again_returns_same h base k ks value wa wa' eq r h' :
  heap_closed h → val_in h base →
  fits h wa (Existing base) (Single <$> k :: ks) →
  safeSet str_to_number base (PathArray (Single <$> k :: ks)) value
    {| withArrays := wa; equality := eq; safe := false |} h = (Ok r, h') →
  safeSet str_to_number r (PathArray (Single <$> k :: ks)) value
    {| withArrays := wa'; equality := None; safe := true |} h' = (Ok r, h').
Proof.
  intros Hclosed Hbase Hfits Hrun.
  rewrite safeSet_unsafe_runs_set in Hrun by done.
  assert (Hholds : holds h' r (k :: ks) value).
  { eapply (set_holds h wa _ Hclosed (k :: ks) (Existing base)); [| | |done|done].
    - rewrite length_fmap. lia.
    - done.
    - done. }
  unfold safeSet. cbn [normalize_path safe equality withArrays].
  assert (Hlen : (length (Single <$> k :: ks) <? 1)%nat = false) by done.
  rewrite Hlen, bind_run.
  rewrite length_fmap, recursiveEqual_single_keys by done.
  rewrite (holds_objects_along _ _ _ _ Hholds), (holds_read_path _ _ _ _ Hholds).
  cbn [same_value andb]. by rewrite bool_decide_eq_true_2.
Qed.

End ReadBack.

(** ** A group that ends the path, on a plain object *)

Lemma object_group_result_off g ks : ∀ i pm name,
  (∀ k, k ∈ ks → key_to_string k ≠ name) →
  object_group_result g ks i pm !! name = pm !! name.
Proof.
  induction ks as [|k0 ks IH]; intros i pm name Hoff; [done|].
  cbn [object_group_result]. rewrite IH.
  - rewrite lookup_insert_ne; [done|]. apply Hoff. by left.
  - intros k Hk. apply Hoff. by right.
Qed.

Lemma object_group_result_last g ks : ∀ i pm j k,
  ks !! j = Some k →
  (∀ j' k', (j < j')%nat → ks !! j' = Some k' → key_to_string k' ≠ key_to_string k) →
  object_group_result g ks i pm !! key_to_string k = Some (g (i + j)%nat k).
Proof.
  induction ks as [|k0 ks IH]; intros i pm j k Hj Hlast; [done|].
  cbn [object_group_result]. destruct j as [|j].
  - injection Hj as ->. rewrite object_group_result_off.
    + by rewrite lookup_insert_eq, Nat.add_0_r.
    + intros k' [j' Hj']%list_elem_of_lookup. apply (Hlast (S j')); [lia|done].
  - rewrite (IH (S i) _ j k); [f_equal; f_equal; lia|done|].
    intros j' k' Hlt Hj'. apply (Hlast (S j')); [lia|done].
Qed.

Lemma object_group_result_by_name g ks :
  (∀ i i' k k', key_to_string k = key_to_string k' → g i k = g i' k') →
  ∀ i pm k, k ∈ ks → object_group_result g ks i pm !! key_to_string k = Some (g 0%nat k).
Proof.
  intros Hname. induction ks as [|k0 ks IH]; intros i pm k Hk; [by apply elem_of_nil in Hk|].
  cbn [object_group_result].
  destruct (decide (Exists (λ k', key_to_string k' = key_to_string k) ks)) as [Hex|Hnex].
  - apply Exists_exists in Hex as (k' & Hk' & Heq).
    rewrite <- Heq, (IH _ _ k' Hk'). f_equal. by apply Hname.
  - rewrite object_group_result_off.
    + apply elem_of_cons in Hk as [->|Hk].
      * rewrite lookup_insert_eq. f_equal. by apply Hname.
      * destruct Hnex. apply Exists_exists. by exists k.
    + intros k' Hk' Heq. destruct Hnex. apply Exists_exists. by exists k'.
Qed.

Lemma reduce_object_terminal (fn : val → list seg → val → bool → M val)
    base path nextKey wa lacc (rv : nat → key → M val) (g : nat → key → val)
    (Inv : heap → Prop) :
  (∀ b v w h, fn b (drop 1 path) v w h = (Ok v, h)) →
  (∀ i k h, Inv h → rv i k h = (Ok (g i k), h)) →
  (∀ h h1, Inv h → h ⊆ h1 → Inv h1) →
  (∀ h o, Inv h → Inv (<[lacc := o]> h)) →
  ∀ ks i h pm,
    Inv h → h !! lacc = Some (OMap pm) →
    ∃ h',
      reduce_from (λ acc k index,
          nb ← nextBase base k nextKey wa;
          v ← rv index k;
          newValue ← fn nb (drop 1 path) v wa;
          object_store acc k newValue;;
          mret acc) ks i (VRef lacc) h = (Ok (VRef lacc), h')
      ∧ h' !! lacc = Some (OMap (object_group_result g ks i pm))
      ∧ Inv h'.
Proof.
  intros Hfn Hrv Hmono Hwrite. induction ks as [|k ks IH]; intros i h pm Hinv Hacc.
  - exists h. cbn [reduce_from object_group_result]. by rewrite ret_run.
  - cbn [reduce_from object_group_result].
    destruct (nextBase_total base k nextKey wa h) as (nb & h1 & Hnb & Hsub).
    assert (Hinv1 : Inv h1) by by eapply Hmono.
    assert (Hacc1 : h1 !! lacc = Some (OMap pm)) by by eapply lookup_weaken.
    rewrite bind_run, bind_run, Hnb, bind_run, (Hrv _ _ _ Hinv1), bind_run, Hfn.
    rewrite bind_run, (object_store_run _ _ _ _ _ Hacc1), ret_run.
    apply IH; [by apply Hwrite|by rewrite lookup_insert_eq].
Qed.

Section GroupOnObject.

Variable str_to_number : string → jsnum.

Lemma set_group_on_object h l props ks values wa fuel :
  h !! l = Some (OMap props) →
  val_in h values →
  is_array h values = true ∨ (values ≠ VUndef ∧ values ≠ VNull) →
  ∃ l' h',
    set str_to_number (S (S fuel)) (VRef l) [Group ks] values wa h = (Ok (VRef l'), h')
    ∧ h ⊆ h' ∧ h !! l' = None
    ∧ h' !! l' = Some (OMap (object_group_result (paired_or_undefined h values) ks 0 ∅ ∪ props)).
Proof.
  intros Hl Hvalues Hpaired. rewrite set_cons. cbn [is_object lookup list_lookup].
  rewrite bind_run, ret_run, bind_run, read_run, (is_array_map _ _ _ Hl).
  rewrite bind_run, read_run, (object_props_map _ _ _ Hl).
  rewrite bind_run, alloc_run.
  set (h1 := <[fresh_loc h := OMap ∅]> h).
  assert (Hsub1 : h ⊆ h1) by apply insert_subseteq, fresh_lookup.
  set (lacc := fresh_loc h1). set (h2 := <[lacc := OMap ∅]> h1).
  assert (Hsub2 : h ⊆ h2) by (by apply extends_alloc).
  assert (Hnew : h !! lacc = None) by (by apply lookup_before_alloc).
  assert (Hloop : ∃ h3,
    reduceWithObject (set str_to_number (S fuel)) (VRef l) [Group ks] ks None values wa h1
    = (Ok (VRef lacc), h3)
    ∧ h3 !! lacc = Some (OMap (object_group_result (paired_or_undefined h values) ks 0 ∅))
    ∧ h ⊆ h3).
  { unfold reduceWithObject. rewrite bind_run, read_run.
    rewrite (is_array_extends h h1) by done.
    destruct (is_array h values) eqn:Harr.
    - rewrite bind_run, alloc_run. fold lacc h2. unfold reduce.
      apply (reduce_object_terminal (set str_to_number (S fuel)) (VRef l) [Group ks] None wa lacc
               (λ index _, read (λ h, array_nth h values index))
               (paired_or_undefined h values) (λ h', h ⊆ h')).
      + intros b v w hh. cbn [drop]. by rewrite set_nil.
      + intros i k hh Hhh. rewrite read_run. unfold paired_or_undefined, paired_value.
        rewrite Harr. cbn [default]. by rewrite (array_nth_extends h hh).
      + intros hh hh' Hhh Hsub. by etrans.
      + intros hh o Hhh. by apply insert_subseteq_r.
      + done.
      + unfold h2. by rewrite lookup_insert_eq.
    - rewrite bind_run, alloc_run. fold lacc h2. unfold reduce.
      destruct Hpaired as [?|[Hu Hn]]; [done|].
      apply (reduce_object_terminal (set str_to_number (S fuel)) (VRef l) [Group ks] None wa lacc
               (λ _ k, value_prop values k)
               (paired_or_undefined h values) (λ h', h ⊆ h')).
      + intros b v w hh. cbn [drop]. by rewrite set_nil.
      + intros i k hh Hhh. rewrite (value_prop_run h hh) by done.
        unfold paired_or_undefined, paired_value. rewrite Harr. cbn [negb].
        destruct (value_prop_pure h values k) eqn:Hp; [done|].
        apply value_prop_pure_None in Hp as [?|?]; done.
      + intros hh hh' Hhh Hsub. by etrans.
      + intros hh o Hhh. by apply insert_subseteq_r.
      + done.
      + unfold h2. by rewrite lookup_insert_eq. }
  destruct Hloop as (h3 & Hrun & Hacc & Hsub3).
  rewrite bind_run, Hrun, bind_run, read_run, (object_props_map _ _ _ Hacc), alloc_run.
  eexists _, _. split; [done|].
  split; [by apply extends_alloc|]. split; [by apply lookup_before_alloc|].
  by rewrite lookup_insert_eq.
Qed.

End GroupOnObject.

Section GroupTheorems.

Variable str_to_number : string → jsnum.

Lemma union_lookup_new (m props : gmap string val) name v :
  m !! name = Some v → (m ∪ props) !! name = Some v.
Proof. intros Hm. by apply lookup_union_Some_l. Qed.

Lemma union_lookup_old (m props : gmap string val) name :
  m !! name = None → (m ∪ props) !! name = props !! name.
Proof. intros Hm. by rewrite lookup_union, Hm, (left_id_L None _). Qed.

(** X14. A group that ends the path, applied to a plain object with values
    that are a plain object, every key of the group being exact, other than
    [__proto__], and naming a property the values own or one that
    [Object.prototype] does not define: in the new object every key of the
    group holds the property of the values of the same name ([undefined] when
    the values lack it), and every other property is the one of the
    original. *)
Theorem safeSet_keyed_group_on_object h l props lv vprops ks wa eq :
  h !! l = Some (OMap props) →
  h !! lv = Some (OMap vprops) →
  forallb (λ k, key_exact k
                && negb (String.eqb (key_to_string k) "__proto__")
                && plain_read (OMap vprops) k) ks = true →
  ∃ l' h' m,
    safeSet str_to_number (VRef l) (PathArray [Group ks]) (VRef lv)
      {| withArrays := wa; equality := eq; safe := false |} h = (Ok (VRef l'), h')
    ∧ h ⊆ h' ∧ h !! l' = None
    ∧ h' !! l' = Some (OMap m)
    ∧ (∀ k, k ∈ ks →
         m !! key_to_string k = Some (default VUndef (vprops !! key_to_string k)))
    ∧ (∀ name, (∀ k, k ∈ ks → key_to_string k ≠ name) → m !! name = props !! name).
Proof.
  intros Hl Hlv _. rewrite safeSet_unsafe_runs_set by done.
  destruct (set_group_on_object str_to_number h l props ks (VRef lv) wa 0 Hl)
    as (l' & h' & Hrun & Hsub & Hnew & Hl'); [by eexists|by right|].
  eexists l', h', _. split; [done|]. split; [done|]. split; [done|]. split; [done|].
  assert (Hg : ∀ i k, paired_or_undefined h (VRef lv) i k
                      = default VUndef (vprops !! key_to_string k)).
  { intros i k. unfold paired_or_undefined, paired_value.
    rewrite (is_array_map _ _ _ Hlv). cbn [value_prop_pure default].
    by rewrite (deref_lookup _ _ _ Hlv), obj_get_map. }
  split.
  - intros k Hk. apply union_lookup_new.
    rewrite (object_group_result_by_name _ ks); [by rewrite Hg| |done].
    intros i i' k1 k2 Hname. by rewrite !Hg, Hname.
  - intros name Hoff. rewrite union_lookup_old; [done|].
    by rewrite object_group_result_off.
Qed.

(** X15. A group that ends the path, applied to a plain object with an array
    of values, every key of the group being exact and other than
    [__proto__]: in the new object the key at position [j] holds the value at
    position [j] ([undefined] past the end of the values), the last key
    winning when two keys share a name, and every other property is the one
    of the original. *)
Theorem safeSet_positional_group_on_object h l props lv vs nv ks wa eq :
  h !! l = Some (OMap props) →
  h !! lv = Some (OArr vs nv) →
  forallb (λ k, key_exact k && negb (String.eqb (key_to_string k) "__proto__")) ks = true →
  ∃ l' h' m,
    safeSet str_to_number (VRef l) (PathArray [Group ks]) (VRef lv)
      {| withArrays := wa; equality := eq; safe := false |} h = (Ok (VRef l'), h')
    ∧ h ⊆ h' ∧ h !! l' = None
    ∧ h' !! l' = Some (OMap m)
    ∧ (∀ j k, ks !! j = Some k →
         (∀ j' k', (j < j')%nat → ks !! j' = Some k' → key_to_string k' ≠ key_to_string k) →
         m !! key_to_string k = Some (default VUndef (vs !! j)))
    ∧ (∀ name, (∀ k, k ∈ ks → key_to_string k ≠ name) → m !! name = props !! name).
Proof.
  intros Hl Hlv _. rewrite safeSet_unsafe_runs_set by done.
  destruct (set_group_on_object str_to_number h l props ks (VRef lv) wa 0 Hl)
    as (l' & h' & Hrun & Hsub & Hnew & Hl'); [by eexists|left; by eapply is_array_arr|].
  eexists l', h', _. split; [done|]. split; [done|]. split; [done|]. split; [done|].
  split.
  - intros j k Hj Hlast. apply union_lookup_new.
    rewrite (object_group_result_last _ ks 0 ∅ j k Hj Hlast).
    unfold paired_or_undefined, paired_value.
    rewrite (is_array_arr _ _ _ _ Hlv). cbn [default Nat.add].
    by rewrite (array_nth_arr _ _ _ _ _ Hlv).
  - intros name Hoff. rewrite union_lookup_old; [done|].
    by rewrite object_group_result_off.
Qed.

(** X16. A group paired with a number or a boolean does not spread that
    value: on a plain object every key of the group, when it is exact and
    names nothing that a number or a boolean inherits from its prototypes, is
    set to [undefined], since the value is indexed by the key, and the other
    properties are kept. *)
Theorem safeSet_group_with_scalar_on_object h l props ks values wa eq :
  h !! l = Some (OMap props) →
  (∃ z, values = VNum z) ∨ (∃ b, values = VBool b) →
  forallb (λ k, key_exact k
                && negb (name_in (key_to_string k) primitive_prototype_names)) ks = true →
  ∃ l' h' m,
    safeSet str_to_number (VRef l) (PathArray [Group ks]) values
      {| withArrays := wa; equality := eq; safe := false |} h = (Ok (VRef l'), h')
    ∧ h ⊆ h' ∧ h !! l' = None
    ∧ h' !! l' = Some (OMap m)
    ∧ (∀ k, k ∈ ks → m !! key_to_string k = Some VUndef)
    ∧ (∀ name, (∀ k, k ∈ ks → key_to_string k ≠ name) → m !! name = props !! name).
Proof.
  intros Hl Hscalar _. rewrite safeSet_unsafe_runs_set by done.
  destruct (set_group_on_object str_to_number h l props ks values wa 0 Hl)
    as (l' & h' & Hrun & Hsub & Hnew & Hl').
  { by destruct Hscalar as [[z ->]|[b ->]]. }
  { right. by destruct Hscalar as [[z ->]|[b ->]]. }
  eexists l', h', _. split; [done|]. split; [done|]. split; [done|]. split; [done|].
  assert (Hg : ∀ i k, paired_or_undefined h values i k = VUndef).
  { intros i k. by destruct Hscalar as [[z ->]|[b ->]]. }
  split.
  - intros k Hk. apply union_lookup_new.
    rewrite (object_group_result_by_name _ ks); [by rewrite Hg| |done].
    intros i i' k1 k2 _. by rewrite !Hg.
  - intros name Hoff. rewrite union_lookup_old; [done|].
    by rewrite object_group_result_off.
Qed.


End GroupTheorems.

(** ** The result of an update is a new object *)

Lemma keeps_alloc_new h0 o : keeps h0 (alloc o) (new_ref h0).
Proof.
  intros h Hsub. split; [by apply extends_alloc|].
  intros a [= <-]. eexists. split; [done|]. by apply lookup_before_alloc.
Qed.

Lemma new_ref_outside h0 v : new_ref h0 v → outside h0 v.
Proof. by intros (l & -> & Hl). Qed.

Section NewResult.

Variable str_to_number : string → jsnum.

Lemma keeps_reduceWithArray_new h0 setFunction base path keys nextKey values wa acc :
  (∀ b p v w, keeps h0 (setFunction b p v w) (λ _, True)) →
  new_ref h0 acc →
  keeps h0 (reduceWithArray str_to_number setFunction base path keys nextKey values wa acc)
    (new_ref h0).
Proof.
  intros Hset Hacc. unfold reduceWithArray.
  eapply keeps_bind; [apply keeps_read|]. intros isarr _.
  destruct (negb isarr); [apply keeps_throw|].
  apply keeps_reduce_from; [|done]. clear acc Hacc. intros acc k i Hacc.
  eapply keeps_bind; [apply keeps_nextBase|]. intros nb _.
  eapply keeps_bind; [apply keeps_read|]. intros vi _.
  eapply keeps_bind; [apply Hset|]. intros newValue _.
  eapply keeps_bind; [apply keeps_read|]. intros len _.
  eapply keeps_bind.
  - instantiate (1 := λ _, True).
    destruct (key_lt_length _ _ _); by apply keeps_modify, new_ref_outside.
  - intros _ _. by apply keeps_ret.
Qed.

Lemma keeps_set_new h0 fuel base sg rest value wa :
  keeps h0 (set str_to_number fuel base (sg :: rest) value wa) (new_ref h0).
Proof.
  destruct fuel as [|fuel]; [apply keeps_out_of_fuel|].
  rewrite set_cons.
  eapply keeps_bind.
  { instantiate (1 := λ _, True).
    destruct (is_object base); [by apply keeps_ret|].
    destruct (coerce_to_array sg wa);
      (eapply keeps_weaken; [apply keeps_alloc|done]). }
  intros currentBase _.
  eapply keeps_bind; [apply keeps_read|]. intros isarr _.
  destruct sg as [k|keys], isarr.
  - eapply keeps_bind; [apply keeps_read|]. intros before _.
    eapply keeps_bind; [apply keeps_nextBase|]. intros nb _.
    eapply keeps_bind; [apply keeps_set|]. intros newValue _.
    eapply keeps_bind; [apply keeps_read|]. intros after _.
    apply keeps_alloc_new.
  - eapply keeps_bind; [apply keeps_read|]. intros own _.
    eapply keeps_bind; [apply keeps_nextBase|]. intros nb _.
    eapply keeps_bind; [apply keeps_set|]. intros newValue _.
    apply keeps_alloc_new.
  - eapply keeps_bind; [apply keeps_read|]. intros copy _.
    eapply keeps_bind; [apply keeps_alloc_new|]. intros acc Hacc.
    apply keeps_reduceWithArray_new; [|done].
    intros b p v w. apply keeps_set.
  - eapply keeps_bind; [apply keeps_read|]. intros own _.
    eapply keeps_bind; [apply keeps_alloc|]. intros _ _.
    eapply keeps_bind.
    { apply keeps_reduceWithObject. intros b p v w. apply keeps_set. }
    intros reduced _.
    eapply keeps_bind; [apply keeps_read|]. intros new_props _.
    apply keeps_alloc_new.
Qed.

(** X18. With a non-empty path, a call that returns gives either the base
    itself, which only the safe mode does and then with the store untouched,
    or a reference to an object that did not exist before the call. Without
    [safe] the result is thus always a new object, even when nothing
    changes. *)
Theorem safeSet_returns_base_or_new h base p value opts r h' :
  p ≠ [] →
  safeSet str_to_number base (PathArray p) value opts h = (Ok r, h') →
  (safe opts = true ∧ r = base ∧ h' = h) ∨ new_ref h r.
Proof.
  intros Hp Hrun. unfold safeSet in Hrun. cbn [normalize_path] in Hrun.
  destruct p as [|sg rest]; [done|].
  assert (Hlen : (length (sg :: rest) <? 1)%nat = false) by done.
  rewrite Hlen in Hrun.
  apply bind_ok_inv in Hrun as (already & h1 & Hpre & Hrun).
  assert (h1 = h ∧ (already = true → safe opts = true)) as [-> Hsafe].
  { destruct (safe opts).
    - destruct (recursiveEqual _ _ _ _ _ _); [|done]. by injection Hpre as _ <-.
    - rewrite ret_run in Hpre. by injection Hpre as <- <-. }
  destruct already.
  - rewrite ret_run in Hrun. injection Hrun as <- <-. left. by split; [apply Hsafe|].
  - right.
    destruct (keeps_set_new h (S (length (sg :: rest))) base sg rest value (withArrays opts) h)
      as [_ Hnew]; [done|].
    apply Hnew. by rewrite Hrun.
Qed.


(** ** A group that ends the path, with positional values *)

Lemma first_failure_none (f : nat → key → option error) ks : ∀ i,
  (∀ j k, f j k = None) → first_failure f ks i = None.
Proof.
  induction ks as [|k ks IH]; intros i Hf; [done|]. cbn. rewrite Hf. by apply IH.
Qed.

Lemma failure_last_group_positional h wa g value ks : ∀ lv,
  is_array h value = true →
  failure h wa lv ((Single <$> ks) ++ [Group g]) value = None.
Proof.
  induction ks as [|k ks IH]; intros lv Harr.
  - cbn. rewrite Harr. by apply first_failure_none.
  - change ((Single <$> k :: ks) ++ [Group g]) with (Single k :: ((Single <$> ks) ++ [Group g])).
    cbn [failure]. by apply IH.
Qed.

(** X20. A path of single keys ending in a group, paired with an array of
    values, never throws: whatever the levels on the way are, the call
    returns. *)
Theorem safeSet_last_group_positional_returns h base ks g value opts :
  heap_closed h → val_in h base → val_in h value →
  is_array h value = true →
  ∃ r h',
    safeSet str_to_number base (PathArray ((Single <$> ks) ++ [Group g])) value opts h
    = (Ok r, h').
Proof.
  intros Hclosed Hbase Hvalue Harr.
  pose proof (safeSet_error str_to_number h base (PathArray ((Single <$> ks) ++ [Group g]))
                value opts Hclosed Hbase Hvalue) as Herr.
  cbn [normalize_path] in Herr.
  rewrite failure_last_group_positional in Herr by done.
  assert (Herr' : error_of (safeSet str_to_number base
                    (PathArray ((Single <$> ks) ++ [Group g])) value opts h).1 = None).
  { rewrite Herr. by destruct (decide _). }
  assert (Hfuel : (safeSet str_to_number base
                     (PathArray ((Single <$> ks) ++ [Group g])) value opts h).1 ≠ OutOfFuel).
  { unfold safeSet. cbn [normalize_path].
    destruct (length _ <? 1)%nat; [done|]. rewrite bind_run.
    assert (Hset : ∀ h1, (set str_to_number (S (length ((Single <$> ks) ++ [Group g]))) base
                      ((Single <$> ks) ++ [Group g]) value (withArrays opts) h1).1 ≠ OutOfFuel).
    { intros h1. apply fuel_suffices_set. lia. }
    destruct (safe opts).
    - destruct (recursiveEqual_is_Some (S (length ((Single <$> ks) ++ [Group g]))) h base
                  ((Single <$> ks) ++ [Group g]) value (equality opts)) as [b ->]; [lia|].
      destruct b; [done|apply Hset].
    - rewrite ret_run. apply Hset. }
  destruct (safeSet str_to_number base (PathArray ((Single <$> ks) ++ [Group g])) value opts h)
    as [[r|e|] h']; [by eexists _, _|done|done].
Qed.

End NewResult.

Section Compose.

Variable str_to_number : string → jsnum.

(** X21. An empty group on a plain object reads no value: the result is a
    new object with exactly the properties of the original, whatever the
    value is, [null] and [undefined] included. *)
Theorem safeSet_empty_group_copies h l props value wa eq :
  h !! l = Some (OMap props) →
  ∃ l' h',
    safeSet str_to_number (VRef l) (PathArray [Group []]) value
      {| withArrays := wa; equality := eq; safe := false |} h = (Ok (VRef l'), h')
    ∧ h ⊆ h' ∧ h !! l' = None
    ∧ h' !! l' = Some (OMap props).
Proof.
  intros Hl. rewrite safeSet_unsafe_runs_set by done. cbn [length].
  rewrite set_cons. cbn [is_object lookup list_lookup].
  rewrite bind_run, ret_run, bind_run, read_run, (is_array_map _ _ _ Hl).
  rewrite bind_run, read_run, (object_props_map _ _ _ Hl).
  rewrite bind_run, alloc_run.
  set (h1 := <[fresh_loc h := OMap ∅]> h).
  assert (Hsub1 : h ⊆ h1) by apply insert_subseteq, fresh_lookup.
  assert (Hloop :
    reduceWithObject (set str_to_number 1) (VRef l) [Group []] [] None value wa h1
    = (Ok (VRef (fresh_loc h1)), <[fresh_loc h1 := OMap ∅]> h1)).
  { unfold reduceWithObject. rewrite bind_run, read_run.
    by destruct (is_array h1 value); rewrite bind_run, alloc_run. }
  rewrite bind_run, Hloop, bind_run, read_run.
  rewrite (object_props_map _ (fresh_loc h1) ∅) by apply lookup_insert_eq.
  rewrite alloc_run, (left_id_L ∅ (∪)).
  eexists _, _. split; [done|].
  split; [by apply extends_alloc, extends_alloc|].
  split; [by apply lookup_before_alloc, extends_alloc|].
  by rewrite lookup_insert_eq.
Qed.


End Compose.

(** ** Instances of the further properties *)

(** X6 on the empty string path, in safe mode. *)
Lemma safeSet_without_path_returns_value_witness :
  (PathString "" = PathOther ∨ PathString "" = PathString "" ∨ PathString "" = PathArray [])
  ∧ safeSet decimal_to_number (VNum 1) (PathString "") (VNum 2)
      {| withArrays := false; equality := None; safe := true |} ∅ = (Ok (VNum 2), ∅).
Proof.
  split; [right; left; reflexivity|].
  apply (safeSet_without_path_returns_value decimal_to_number ∅ (VNum 1) (PathString "")).
  right. left. reflexivity.
Defined.

(** X7 on [[1, 2, 3]] written at index 1. *)
Lemma safeSet_index_in_range_witness :
  let h : heap := {[ 1%positive := OArr [VNum 1; VNum 2; VNum 3] ∅ ]} in
  (h !! 1%positive = Some (OArr [VNum 1; VNum 2; VNum 3] ∅)
   ∧ (N.to_nat 1 < length [VNum 1; VNum 2; VNum 3])%nat)
  ∧ ∃ l' h',
      safeSet decimal_to_number (VRef 1%positive) (PathArray [Single (KNum 1)]) (VNum 9)
        {| withArrays := false; equality := None; safe := false |} h = (Ok (VRef l'), h')
      ∧ h ⊆ h' ∧ h !! l' = None
      ∧ h' !! l' = Some (OArr (<[N.to_nat 1 := VNum 9]> [VNum 1; VNum 2; VNum 3]) ∅).
Proof.
  intros h. split; [split; [reflexivity|cbn; lia]|].
  apply (safeSet_index_in_range decimal_to_number h 1%positive [VNum 1; VNum 2; VNum 3] ∅ 1%N);
    [reflexivity|cbn; lia].
Defined.

(** X8 on [{ a: 1 }] written at the numeric key 0. *)
Lemma safeSet_key_on_object_witness :
  let h : heap := {[ 1%positive := OMap {[ "a" := VNum 1 ]} ]} in
  (h !! 1%positive = Some (OMap {[ "a" := VNum 1 ]}) ∧ key_exact (KNum 0) = true)
  ∧ ∃ l' h',
      safeSet decimal_to_number (VRef 1%positive) (PathArray [Single (KNum 0)]) (VNum 9)
        {| withArrays := false; equality := None; safe := false |} h = (Ok (VRef l'), h')
      ∧ h ⊆ h' ∧ h !! l' = None
      ∧ h' !! l' = Some (OMap (<[key_to_string (KNum 0) := VNum 9]> {[ "a" := VNum 1 ]})).
Proof.
  intros h. split; [split; reflexivity|].
  apply (safeSet_key_on_object decimal_to_number h 1%positive {[ "a" := VNum 1 ]} (KNum 0));
    reflexivity.
Defined.

(** X9 on [[1, 2, 3]] with the string key [1]: the third element is lost. *)
Lemma safeSet_string_key_on_array_witness :
  let h : heap := {[ 1%positive := OArr [VNum 1; VNum 2; VNum 3] ∅ ]} in
  (h !! 1%positive = Some (OArr [VNum 1; VNum 2; VNum 3] ∅)
   ∧ to_integer_or_infinity (decimal_to_number "1") = Fin 1 ∧ 0 ≤ 1
   ∧ to_integer_or_infinity (decimal_to_number ("1" +:+ "1")) = Fin 11 ∧ 0 ≤ 11)
  ∧ ∃ l' h',
      safeSet decimal_to_number (VRef 1%positive) (PathArray [Single (KStr "1")]) (VNum 9)
        {| withArrays := false; equality := None; safe := false |} h = (Ok (VRef l'), h')
      ∧ h ⊆ h' ∧ h !! l' = None
      ∧ h' !! l' = Some (OArr (take (Z.to_nat 1) [VNum 1; VNum 2; VNum 3]
                               ++ VNum 9 :: drop (Z.to_nat 11) [VNum 1; VNum 2; VNum 3]) ∅).
Proof.
  intros h. split; [split_and!; [reflexivity|reflexivity|lia|reflexivity|lia]|].
  apply (safeSet_string_key_on_array decimal_to_number h 1%positive
           [VNum 1; VNum 2; VNum 3] ∅ "1" 1 11);
    [reflexivity|reflexivity|lia|reflexivity|lia].
Defined.


(** X12 on [{ a: 5 }] with the path [a, 0, b] and [withArrays]. *)
Lemma safeSet_then_read_witness :
  let h : heap := {[ 1%positive := OMap {[ "a" := VNum 5 ]} ]} in
  let ks := [KStr "a"; KNum 0; KStr "b"] in
  (heap_closed h ∧ val_in h (VRef 1%positive)
   ∧ fits h true (Existing (VRef 1%positive)) (Single <$> ks))
  ∧ ∃ r h',
      safeSet decimal_to_number (VRef 1%positive) (PathArray (Single <$> ks)) (VStr "x")
        {| withArrays := true; equality := None; safe := false |} h = (Ok r, h')
      ∧ read_path h' r ks = VStr "x".
Proof.
  intros h ks.
  assert (Hclosed : heap_closed h).
  { apply map_Forall_singleton. cbn. by apply map_Forall_singleton. }
  assert (Hbase : val_in h (VRef 1%positive)) by (by eexists).
  assert (Hfits : fits h true (Existing (VRef 1%positive)) (Single <$> ks)).
  { split; [done|]. intros k [->|Hk]%elem_of_cons; [|by apply elem_of_nil in Hk].
    split; [vm_compute; lia|]. intros k [->|Hk]%elem_of_cons; [|by apply elem_of_nil in Hk].
    split; [done|]. done. }
  split; [done|].
  exact (safeSet_then_read decimal_to_number h (VRef 1%positive) ks (VStr "x") true None
           Hclosed Hbase Hfits).
Defined.

(** X13 on [{ a: 5 }] with the path [a, b]. *)
Lemma safeSet_again_returns_same_witness :
  let h : heap := {[ 1%positive := OMap {[ "a" := VNum 5 ]} ]} in
  let opts := {| withArrays := false; equality := None; safe := false |} in
  let p := Single <$> KStr "a" :: [KStr "b"] in
  ∃ r h',
    (heap_closed h ∧ val_in h (VRef 1%positive)
     ∧ fits h false (Existing (VRef 1%positive)) p
     ∧ safeSet decimal_to_number (VRef 1%positive) (PathArray p) (VStr "x") opts h = (Ok r, h'))
    ∧ safeSet decimal_to_number r (PathArray p) (VStr "x")
        {| withArrays := true; equality := None; safe := true |} h' = (Ok r, h').
Proof.
  intros h opts p.
  assert (Hclosed : heap_closed h).
  { apply map_Forall_singleton. cbn. by apply map_Forall_singleton. }
  assert (Hbase : val_in h (VRef 1%positive)) by (by eexists).
  assert (Hfits : fits h false (Existing (VRef 1%positive)) p).
  { split; [done|]. intros k [->|Hk]%elem_of_cons; [|by apply elem_of_nil in Hk].
    split; [done|]. done. }
  assert (Hrun : ∃ r h', safeSet decimal_to_number (VRef 1%positive) (PathArray p) (VStr "x")
                           opts h = (Ok r, h')) by (eexists _, _; vm_compute; reflexivity).
  destruct Hrun as (r & h' & Hrun). exists r, h'. split; [done|].
  exact (safeSet_again_returns_same decimal_to_number h (VRef 1%positive) (KStr "a") [KStr "b"]
           (VStr "x") false true None r h' Hclosed Hbase Hfits Hrun).
Defined.

(** X14 on [{ z: 0 }] with the group [x, y] and the values [{ x: 1, y: 2 }]. *)
Lemma safeSet_keyed_group_on_object_witness :
  let h : heap := {[ 1%positive := OMap {[ "z" := VNum 0 ]};
                     2%positive := OMap {[ "x" := VNum 1; "y" := VNum 2 ]} ]} in
  (h !! 1%positive = Some (OMap {[ "z" := VNum 0 ]})
   ∧ h !! 2%positive = Some (OMap {[ "x" := VNum 1; "y" := VNum 2 ]})
   ∧ forallb (λ k, key_exact k
                   && negb (String.eqb (key_to_string k) "__proto__")
                   && plain_read (OMap {[ "x" := VNum 1; "y" := VNum 2 ]}) k)
       [KStr "x"; KStr "y"] = true)
  ∧ ∃ l' h' m,
      safeSet decimal_to_number (VRef 1%positive) (PathArray [Group [KStr "x"; KStr "y"]])
        (VRef 2%positive) {| withArrays := false; equality := None; safe := false |} h
      = (Ok (VRef l'), h')
      ∧ h ⊆ h' ∧ h !! l' = None
      ∧ h' !! l' = Some (OMap m)
      ∧ (∀ k, k ∈ [KStr "x"; KStr "y"] →
           m !! key_to_string k
           = Some (default VUndef
                     (({[ "x" := VNum 1; "y" := VNum 2 ]} : gmap string val) !! key_to_string k)))
      ∧ (∀ name, (∀ k, k ∈ [KStr "x"; KStr "y"] → key_to_string k ≠ name) →
           m !! name = ({[ "z" := VNum 0 ]} : gmap string val) !! name).
Proof.
  intros h. split; [split_and!; reflexivity|].
  apply (safeSet_keyed_group_on_object decimal_to_number h 1%positive {[ "z" := VNum 0 ]}
           2%positive {[ "x" := VNum 1; "y" := VNum 2 ]}); reflexivity.
Defined.

(** X15 on [{ z: 0 }] with the group [x, y] and the values [[1, 2]]. *)
Lemma safeSet_positional_group_on_object_witness :
  let h : heap := {[ 1%positive := OMap {[ "z" := VNum 0 ]};
                     2%positive := OArr [VNum 1; VNum 2] ∅ ]} in
  (h !! 1%positive = Some (OMap {[ "z" := VNum 0 ]})
   ∧ h !! 2%positive = Some (OArr [VNum 1; VNum 2] ∅)
   ∧ forallb (λ k, key_exact k && negb (String.eqb (key_to_string k) "__proto__"))
       [KStr "x"; KStr "y"] = true)
  ∧ ∃ l' h' m,
      safeSet decimal_to_number (VRef 1%positive) (PathArray [Group [KStr "x"; KStr "y"]])
        (VRef 2%positive) {| withArrays := false; equality := None; safe := false |} h
      = (Ok (VRef l'), h')
      ∧ h ⊆ h' ∧ h !! l' = None
      ∧ h' !! l' = Some (OMap m)
      ∧ (∀ j k, [KStr "x"; KStr "y"] !! j = Some k →
           (∀ j' k', (j < j')%nat → [KStr "x"; KStr "y"] !! j' = Some k' →
              key_to_string k' ≠ key_to_string k) →
           m !! key_to_string k = Some (default VUndef ([VNum 1; VNum 2] !! j)))
      ∧ (∀ name, (∀ k, k ∈ [KStr "x"; KStr "y"] → key_to_string k ≠ name) →
           m !! name = ({[ "z" := VNum 0 ]} : gmap string val) !! name).
Proof.
  intros h. split; [split_and!; reflexivity|].
  apply (safeSet_positional_group_on_object decimal_to_number h 1%positive {[ "z" := VNum 0 ]}
           2%positive [VNum 1; VNum 2] ∅); reflexivity.
Defined.

(** X16 on [{ x: 0 }] with the group [x, y] and the value 7. *)
Lemma safeSet_group_with_scalar_on_object_witness :
  let h : heap := {[ 1%positive := OMap {[ "x" := VNum 0 ]} ]} in
  (h !! 1%positive = Some (OMap {[ "x" := VNum 0 ]})
   ∧ ((∃ z, VNum 7 = VNum z) ∨ (∃ b, VNum 7 = VBool b))
   ∧ forallb (λ k, key_exact k
                   && negb (name_in (key_to_string k) primitive_prototype_names))
       [KStr "x"; KStr "y"] = true)
  ∧ ∃ l' h' m,
      safeSet decimal_to_number (VRef 1%positive) (PathArray [Group [KStr "x"; KStr "y"]])
        (VNum 7) {| withArrays := false; equality := None; safe := false |} h
      = (Ok (VRef l'), h')
      ∧ h ⊆ h' ∧ h !! l' = None
      ∧ h' !! l' = Some (OMap m)
      ∧ (∀ k, k ∈ [KStr "x"; KStr "y"] → m !! key_to_string k = Some VUndef)
      ∧ (∀ name, (∀ k, k ∈ [KStr "x"; KStr "y"] → key_to_string k ≠ name) →
           m !! name = ({[ "x" := VNum 0 ]} : gmap string val) !! name).
Proof.
  intros h. split; [split_and!; [reflexivity|left; by exists 7|reflexivity]|].
  apply (safeSet_group_with_scalar_on_object decimal_to_number h 1%positive {[ "x" := VNum 0 ]});
    [reflexivity|left; by exists 7|reflexivity].
Defined.


(** X18 on [{ a: 1 }] asked, without [safe], to hold 1 at [a]. *)
Lemma safeSet_returns_base_or_new_witness :
  let h : heap := {[ 1%positive := OMap {[ "a" := VNum 1 ]} ]} in
  let p := [Single (KStr "a")] in
  ∃ r h',
    (p ≠ []
     ∧ safeSet decimal_to_number (VRef 1%positive) (PathArray p) (VNum 1) default_options h
       = (Ok r, h'))
    ∧ ((safe default_options = true ∧ r = VRef 1%positive ∧ h' = h) ∨ new_ref h r).
Proof.
  intros h p.
  assert (Hp : p ≠ []) by discriminate.
  assert (Hrun : ∃ r h', safeSet decimal_to_number (VRef 1%positive) (PathArray p) (VNum 1)
                           default_options h = (Ok r, h')) by (eexists _, _; vm_compute; reflexivity).
  destruct Hrun as (r & h' & Hrun). exists r, h'. split; [done|].
  exact (safeSet_returns_base_or_new decimal_to_number h (VRef 1%positive) p (VNum 1)
           default_options r h' Hp Hrun).
Defined.


(** X20 on the empty object with the path [a, [0, 1]] and the values [[10, 20]]. *)
Lemma safeSet_last_group_positional_returns_witness :
  let h : heap := {[ 1%positive := OMap ∅; 2%positive := OArr [VNum 10; VNum 20] ∅ ]} in
  (heap_closed h ∧ val_in h (VRef 1%positive) ∧ val_in h (VRef 2%positive)
   ∧ is_array h (VRef 2%positive) = true)
  ∧ ∃ r h',
      safeSet decimal_to_number (VRef 1%positive)
        (PathArray ((Single <$> [KStr "a"]) ++ [Group [KNum 0; KNum 1]])) (VRef 2%positive)
        default_options h = (Ok r, h').
Proof.
  intros h.
  assert (Hclosed : heap_closed h).
  { apply map_Forall_insert_2.
    - cbn. apply map_Forall_empty.
    - apply map_Forall_singleton. cbn. split; [|apply map_Forall_empty].
      by repeat constructor. }
  assert (Hbase : val_in h (VRef 1%positive)) by (by eexists).
  assert (Hvalue : val_in h (VRef 2%positive)) by (by eexists).
  split; [done|].
  exact (safeSet_last_group_positional_returns decimal_to_number h (VRef 1%positive)
           [KStr "a"] [KNum 0; KNum 1] (VRef 2%positive) default_options
           Hclosed Hbase Hvalue eq_refl).
Defined.

(** X21 on [{ a: 1 }] with the empty group and the value [null]. *)
Lemma safeSet_empty_group_copies_witness :
  let h : heap := {[ 1%positive := OMap {[ "a" := VNum 1 ]} ]} in
  h !! 1%positive = Some (OMap {[ "a" := VNum 1 ]})
  ∧ ∃ l' h',
      safeSet decimal_to_number (VRef 1%positive) (PathArray [Group []]) VNull
        {| withArrays := false; equality := None; safe := false |} h = (Ok (VRef l'), h')
      ∧ h ⊆ h' ∧ h !! l' = None
      ∧ h' !! l' = Some (OMap {[ "a" := VNum 1 ]}).
Proof.
  intros h. split; [reflexivity|].
  apply (safeSet_empty_group_copies decimal_to_number h 1%positive {[ "a" := VNum 1 ]}).
  reflexivity.
Defined.

